(** * Generational handles and the handle table (include/util/Handle.h)

    A shallow embedding of [ECS::util::Internal::Handle] and of
    [ECS::util::HandleTable], and the properties of the handle life cycle
    (acquire, release, expiry, growth, exhaustion) established on it.

    Conventions.
    - Every integer of the source is unsigned; it is an [N] and the places
      where the C++ arithmetic wraps or truncates are written out.
    - [unsigned int] has [UINT_BITS = 32] bits (the literals [1U]).
    - [std::min(oldSize + grow, Handle::MAX_INDICES)] only compiles when
      [size_t] and [Handle::index_type] are one type, so sizes and indices
      share the width [index_type_bits].
    - [std::vector] is a [list]; [m_Table[i]] outside the vector is
      undefined behaviour, outcome [Undefined].
    - [assert] aborts with its message unless the build defines [NDEBUG]. *)

From Stdlib Require Import NArith Lia String.
From stdpp Require Import base numbers list.

Local Open Scope N_scope.

(** ** Outcomes of a call *)

Inductive outcome (A : Type) : Type :=
  | Return (a : A)
  | AssertionFailed (msg : string)
  | Undefined.
Arguments Return {A} a.
Arguments AssertionFailed {A} msg.
Arguments Undefined {A}.

Definition obind {A B} (m : outcome A) (k : A -> outcome B) : outcome B :=
  match m with
  | Return a => k a
  | AssertionFailed msg => AssertionFailed msg
  | Undefined => Undefined
  end.

Notation "'let!' x ':=' m 'in' k" := (obind m (fun x => k))
  (at level 10, x name, m at level 100, k at level 200).

(** A constant whose initialiser has no defined value poisons its users. *)
Definition const {A} (c : option A) : outcome A :=
  match c with
  | Some a => Return a
  | None => Undefined
  end.

(** [assert(cond && "msg")] *)
Definition assert_ (NDEBUG : bool) (cond : bool) (msg : string) : outcome unit :=
  if NDEBUG || cond then Return tt else AssertionFailed msg.

(** ** Unsigned arithmetic of the source *)

Definition UINT_BITS : N := 32.

(** Conversion to an unsigned type of [bits] bits. *)
Definition wrap (bits x : N) : N := x mod 2 ^ bits.

(** [a << n] on [unsigned int]: without a defined value when [n] is not
    smaller than the width of the type. *)
Definition uint_shl (a n : N) : option N :=
  if n <? UINT_BITS then Some (wrap UINT_BITS (a * 2 ^ n)) else None.

(** [a - b] on [unsigned int], for operands of that type. *)
Definition uint_sub (a b : N) : N := wrap UINT_BITS (a + 2 ^ UINT_BITS - b).

(** Brace initialisation [type name { value }] of a constant: a value that
    the type cannot hold is a narrowing conversion, which is rejected. *)
Definition brace_init (bits x : N) : option N :=
  if x <? 2 ^ bits then Some x else None.

(** [x + 1] where [x] has an unsigned type of [bits] bits: a type narrower
    than [int] is promoted to [int] first and the sum is exact, otherwise
    the sum wraps in the type itself. *)
Definition plus_one (bits x : N) : N :=
  if bits <? UINT_BITS then x + 1 else wrap bits (x + 1).

(** ** Handle *)

Module Handle.

(** The template parameters of [Internal::Handle]; the two types are given
    by their widths. *)
Record params : Type := Params {
  version_type_bits : N;
  index_type_bits : N;
  NUM_VERSION_BITS : N;
  NUM_INDEX_BITS : N
}.

Definition MIN_VERISON (p : params) : N := 0.

Definition MAX_VERSION (p : params) : option N :=
  match uint_shl 1 (NUM_VERSION_BITS p) with
  | Some x => brace_init (version_type_bits p) (uint_sub x 1)
  | None => None
  end.

Definition MAX_INDICES (p : params) : option N :=
  match uint_shl 1 (NUM_INDEX_BITS p) with
  | Some x => brace_init (index_type_bits p) (uint_sub x 1)
  | None => None
  end.

Definition INVALID_HANDLE (p : params) : N := 2 ^ index_type_bits p - 1.

(** The two bit-fields of the union; the word [value] that shares their
    storage is not read by the table. *)
Record t : Type := Fields { index : N; version : N }.

(** [Handle(index_type index, version_type version)]: each bit-field keeps
    the low bits of what it is given. *)
Definition make (p : params) (i v : N) : t :=
  {| index := wrap (NUM_INDEX_BITS p) i;
     version := wrap (NUM_VERSION_BITS p) v |}.

End Handle.

(** [using Handle32 = Internal::Handle<u16, u32, 12, 20>] *)
Definition Handle32 : Handle.params :=
  {| Handle.version_type_bits := 16; Handle.index_type_bits := 32;
     Handle.NUM_VERSION_BITS := 12; Handle.NUM_INDEX_BITS := 20 |}.

(** [Handle64] is [Internal::Handle<u32, u64, 24, 40>] under [ECS_64BIT] and
    [Handle32] otherwise. *)
Definition Handle64 (ECS_64BIT : bool) : Handle.params :=
  if ECS_64BIT
  then {| Handle.version_type_bits := 32; Handle.index_type_bits := 64;
          Handle.NUM_VERSION_BITS := 24; Handle.NUM_INDEX_BITS := 40 |}
  else Handle32.

(** ** HandleTable *)

(** [T*]: the table never looks behind a pointer, only at whether it is
    null. *)
Inductive ptr : Type :=
  | nullptr
  | object (address : positive).

Definition is_null (q : ptr) : bool :=
  match q with
  | nullptr => true
  | object _ => false
  end.

(** [using TableEntry = std::pair<typename Handle::version_type, T*>] *)
Abbreviation TableEntry := (N * ptr)%type (only parsing).

(** The member [m_Table]. *)
Abbreviation table := (list (N * ptr)) (only parsing).

(** [m_Table.size()] *)
Definition size (tb : list TableEntry) : N := N.of_nat (length tb).

(** [m_Table[i]], read. *)
Definition at_ (tb : list TableEntry) (i : N) : outcome TableEntry :=
  const (tb !! N.to_nat i).

(** [m_Table[i].first = v] *)
Definition set_first (tb : list TableEntry) (i v : N) : outcome table :=
  let! e := at_ tb i in Return (<[N.to_nat i := (v, e.2)]> tb).

(** [m_Table[i].second = q] *)
Definition set_second (tb : list TableEntry) (i : N) (q : ptr) : outcome table :=
  let! e := at_ tb i in Return (<[N.to_nat i := (e.1, q)]> tb).

(** [m_Table.resize(n)]: cut to [n] entries, or filled up to [n] entries
    with value-initialised pairs. *)
Definition resize (n : N) (tb : list TableEntry) : table :=
  take (N.to_nat n) tb ++ replicate (N.to_nat n - length tb)%nat (0, nullptr).

(** The first index at or after [i] whose pointer is null, [tb] being the
    part of the table from [i] on: the scan of [AqcuireHandle]. *)
Fixpoint first_empty_from (tb : list TableEntry) (i : N) : option N :=
  match tb with
  | [] => None
  | e :: tb' => if is_null e.2 then Some i else first_empty_from tb' (i + 1)
  end.

Definition first_empty (tb : list TableEntry) : option N := first_empty_from tb 0.

Section HandleTable.

(** [template<class T, class handle_version, size_t grow = 1024>], and
    whether the build defines [NDEBUG]. *)
Variable p : Handle.params.
Variable grow : N.
Variable NDEBUG : bool.

(** The loop of [GrowTable]: [n] iterations from index [i]. *)
Fixpoint GrowTable_init (n : nat) (i : N) (tb : list TableEntry) : table :=
  match n with
  | O => tb
  | S n' => GrowTable_init n' (i + 1) (<[N.to_nat i := (Handle.MIN_VERISON p, nullptr)]> tb)
  end.

Definition GrowTable (tb : list TableEntry) : outcome table :=
  let oldSize := size tb in
  let! max_indices := const (Handle.MAX_INDICES p) in
  let! _ := assert_ NDEBUG (oldSize <? max_indices) "Max table capacity reached!" in
  let newSize := N.min (wrap (Handle.index_type_bits p) (oldSize + grow)) max_indices in
  let tb1 := resize newSize tb in
  Return (GrowTable_init (N.to_nat (newSize - oldSize)) oldSize tb1).

(** The constructor. *)
Definition HandleTable : outcome table := GrowTable [].

(** The body of the scan of [AqcuireHandle] at an index [i] whose slot is
    empty. *)
Definition AqcuireHandle_reuse (tb : list TableEntry) (i : N) (rawObject : ptr)
  : outcome (Handle.t * table) :=
  let! tb1 := set_second tb i rawObject in
  let! e := at_ tb1 i in
  let! max_version := const (Handle.MAX_VERSION p) in
  let next := plus_one (Handle.version_type_bits p) e.1 in
  let! tb2 := set_first tb1 i
                (if max_version <? next then Handle.MIN_VERISON p
                 else wrap (Handle.version_type_bits p) next) in
  let! e2 := at_ tb2 i in
  Return (Handle.make p i e2.1, tb2).

(** What follows the scan when it has found no empty slot; [i] is then
    the size of the table before growth. *)
Definition AqcuireHandle_grow (tb : list TableEntry) (rawObject : ptr)
  : outcome (Handle.t * table) :=
  let i := size tb in
  let! tb1 := GrowTable tb in
  let! tb2 := set_second tb1 i rawObject in
  let! e := at_ tb2 i in
  let! tb3 := set_first tb2 i (wrap (Handle.version_type_bits p) (e.1 + 1)) in
  Return (Handle.make p i e.1, tb3).

Definition AqcuireHandle (tb : list TableEntry) (rawObject : ptr)
  : outcome (Handle.t * table) :=
  match first_empty tb with
  | Some i => AqcuireHandle_reuse tb i rawObject
  | None => AqcuireHandle_grow tb rawObject
  end.

(** [handle.index < m_Table.size() && handle.version == m_Table[handle.index].first] *)
Definition current (tb : list TableEntry) (handle : Handle.t) : bool :=
  (Handle.index handle <? size tb) &&
  match tb !! N.to_nat (Handle.index handle) with
  | Some e => Handle.version handle =? e.1
  | None => false
  end.

Definition ReleaseHandle (tb : list TableEntry) (handle : Handle.t) : outcome table :=
  let! _ := assert_ NDEBUG (current tb handle) "Invalid handle!" in
  set_second tb (Handle.index handle) nullptr.

Definition IsExpired (tb : list TableEntry) (handle : Handle.t) : outcome bool :=
  let! e := at_ tb (Handle.index handle) in
  Return (negb (e.1 =? Handle.version handle)).

(** [operator[](typename Handle::index_type index)] *)
Definition handle_at (tb : list TableEntry) (index : N) : outcome Handle.t :=
  let! _ := assert_ NDEBUG (index <? size tb) "Invalid handle!" in
  let! e := at_ tb index in
  Return (Handle.make p index e.1).

(** [operator[](Handle handle)] *)
Definition deref (tb : list TableEntry) (handle : Handle.t) : outcome ptr :=
  let! _ := assert_ NDEBUG (current tb handle) "Invalid handle!" in
  let! e := at_ tb (Handle.index handle) in
  Return (if e.1 =? Handle.version handle then e.2 else nullptr).

End HandleTable.

(** ** Sequences of calls *)

(** One release of the handle in hand followed by one acquisition. *)
Definition release_acquire (p : Handle.params) (grow : N) (NDEBUG : bool)
    (rawObject : ptr) (st : Handle.t * table) : outcome (Handle.t * table) :=
  let! tb1 := ReleaseHandle NDEBUG st.2 st.1 in
  AqcuireHandle p grow NDEBUG tb1 rawObject.

Fixpoint release_acquire_n (p : Handle.params) (grow : N) (NDEBUG : bool)
    (rawObject : ptr) (n : nat) (st : Handle.t * table) : outcome (Handle.t * table) :=
  match n with
  | O => Return st
  | S n' =>
      let! st' := release_acquire_n p grow NDEBUG rawObject n' st in
      release_acquire p grow NDEBUG rawObject st'
  end.

(** The public operations, as calls on a table. *)
Inductive call : Type :=
  | CallAqcuireHandle (rawObject : ptr)
  | CallReleaseHandle (handle : Handle.t)
  | CallIsExpired (handle : Handle.t)
  | CallHandleAt (index : N)
  | CallDeref (handle : Handle.t).

Definition do_call (p : Handle.params) (grow : N) (NDEBUG : bool)
    (tb : list TableEntry) (c : call) : outcome table :=
  match c with
  | CallAqcuireHandle rawObject =>
      let! r := AqcuireHandle p grow NDEBUG tb rawObject in Return r.2
  | CallReleaseHandle handle => ReleaseHandle NDEBUG tb handle
  | CallIsExpired handle => let! _ := IsExpired tb handle in Return tb
  | CallHandleAt index => let! _ := handle_at p NDEBUG tb index in Return tb
  | CallDeref handle => let! _ := deref NDEBUG tb handle in Return tb
  end.

Fixpoint do_calls (p : Handle.params) (grow : N) (NDEBUG : bool)
    (tb : list TableEntry) (cs : list call) : outcome table :=
  match cs with
  | [] => Return tb
  | c :: cs' =>
      let! tb1 := do_call p grow NDEBUG tb c in
      do_calls p grow NDEBUG tb1 cs'
  end.

(** The call does not end in a failed assertion. *)
Definition no_assertion {A : Type} (o : outcome A) : Prop :=
  forall msg, o <> AssertionFailed msg.

(** ** Invariant of the table *)

(** The table has at most [MAX_INDICES] slots and no version counter is
    above [MAX_VERSION]. *)
Definition wf (p : Handle.params) (tb : list TableEntry) : bool :=
  match Handle.MAX_INDICES p, Handle.MAX_VERSION p with
  | Some max_indices, Some max_version =>
      (size tb <=? max_indices) && forallb (fun e : TableEntry => e.1 <=? max_version) tb
  | _, _ => false
  end.

(** No slot of the table is empty. *)
Definition full (tb : list TableEntry) : bool :=
  forallb (fun e : TableEntry => negb (is_null e.2)) tb.

(** The handle names a slot of the table whose version is no longer the
    handle's. *)
Definition stale (tb : list TableEntry) (handle : Handle.t) : bool :=
  (Handle.index handle <? size tb) &&
  match tb !! N.to_nat (Handle.index handle) with
  | Some e => negb (Handle.version handle =? e.1)
  | None => false
  end.

(** A table of [n] occupied slots, all of version [v]. *)
Definition occupied_table (n : nat) (v : N) : table :=
  replicate n (v, object 1).

(** ** Further sequences of calls and states *)

(** Acquisitions in a row, one per object and nothing released in between;
    the handles come in the order in which they were returned. *)
Fixpoint acquire_all (p : Handle.params) (grow : N) (NDEBUG : bool)
    (tb : list TableEntry) (rawObjects : list ptr) : outcome (list Handle.t * table) :=
  match rawObjects with
  | [] => Return ([], tb)
  | rawObject :: rest =>
      let! a := AqcuireHandle p grow NDEBUG tb rawObject in
      let! b := acquire_all p grow NDEBUG a.2 rest in
      Return (a.1 :: b.1, b.2)
  end.

(** The call is a release of a handle whose index is [i]. *)
Definition releases_index (i : N) (c : call) : bool :=
  match c with
  | CallReleaseHandle handle => Handle.index handle =? i
  | _ => false
  end.

(** The slot [j] of the table holds an object. *)
Definition occupied (tb : list TableEntry) (j : nat) : Prop :=
  exists v, exists address, tb !! j = Some (v, object address).

(** [Handle() : value(-1)]: the word [value] of a default-constructed handle,
    [-1] converted to [index_type]. *)
Definition Handle_default_value (p : Handle.params) : N :=
  2 ^ Handle.index_type_bits p - 1.

(** The bit-field [index] of a default-constructed handle: it lies inside
    the word [value], all of whose bits are set. *)
Definition Handle_default_index (p : Handle.params) : N :=
  wrap (Handle.NUM_INDEX_BITS p) (Handle_default_value p).

(** * Properties *)

(** ** Arithmetic *)

Lemma wrap_small bits x : x < 2 ^ bits -> wrap bits x = x.
Proof. intros H. unfold wrap. now apply N.mod_small. Qed.

Lemma uint_shl_1 n x : uint_shl 1 n = Some x -> n < UINT_BITS /\ x = 2 ^ n.
Proof.
  unfold uint_shl. destruct (N.ltb_spec n UINT_BITS) as [Hn|Hn]; [|discriminate].
  intros [= <-]. split; [assumption|].
  rewrite N.mul_1_l. apply wrap_small. apply N.pow_lt_mono_r; lia.
Qed.

Lemma uint_sub_pow n : n < UINT_BITS -> uint_sub (2 ^ n) 1 = 2 ^ n - 1.
Proof.
  intros Hn. unfold uint_sub, wrap.
  assert (H1 : 2 ^ n < 2 ^ UINT_BITS) by (apply N.pow_lt_mono_r; lia).
  assert (H2 : 0 < 2 ^ n) by (apply N.neq_0_lt_0, N.pow_nonzero; lia).
  replace (2 ^ n + 2 ^ UINT_BITS - 1) with ((2 ^ n - 1) + 1 * 2 ^ UINT_BITS) by lia.
  rewrite N.Div0.mod_add. apply N.mod_small. lia.
Qed.

Lemma brace_init_Some bits x y : brace_init bits x = Some y -> y = x /\ x < 2 ^ bits.
Proof.
  unfold brace_init. destruct (N.ltb_spec x (2 ^ bits)); [|discriminate].
  intros [= <-]. auto.
Qed.

Lemma MAX_VERSION_Some p mv :
  Handle.MAX_VERSION p = Some mv ->
  Handle.NUM_VERSION_BITS p < UINT_BITS /\
  mv = 2 ^ Handle.NUM_VERSION_BITS p - 1 /\
  mv < 2 ^ Handle.version_type_bits p.
Proof.
  unfold Handle.MAX_VERSION.
  destruct (uint_shl 1 (Handle.NUM_VERSION_BITS p)) as [x|] eqn:Hx; [|discriminate].
  apply uint_shl_1 in Hx as [Hn ->]. intros Hb.
  apply brace_init_Some in Hb as [-> Hlt].
  rewrite uint_sub_pow in * by assumption. auto.
Qed.

Lemma MAX_INDICES_Some p mi :
  Handle.MAX_INDICES p = Some mi ->
  Handle.NUM_INDEX_BITS p < UINT_BITS /\
  mi = 2 ^ Handle.NUM_INDEX_BITS p - 1 /\
  mi < 2 ^ Handle.index_type_bits p.
Proof.
  unfold Handle.MAX_INDICES.
  destruct (uint_shl 1 (Handle.NUM_INDEX_BITS p)) as [x|] eqn:Hx; [|discriminate].
  apply uint_shl_1 in Hx as [Hn ->]. intros Hb.
  apply brace_init_Some in Hb as [-> Hlt].
  rewrite uint_sub_pow in * by assumption. auto.
Qed.

(** ** The vector *)

Lemma at_Return (tb : list TableEntry) i e :
  tb !! N.to_nat i = Some e -> at_ tb i = Return e.
Proof. intros H. unfold at_. now rewrite H. Qed.

Lemma set_second_Return (tb : list TableEntry) i v q q' :
  tb !! N.to_nat i = Some (v, q) ->
  set_second tb i q' = Return (<[N.to_nat i := (v, q')]> tb).
Proof. intros H. unfold set_second. now rewrite (at_Return _ _ _ H). Qed.

Lemma set_first_Return (tb : list TableEntry) i v q v' :
  tb !! N.to_nat i = Some (v, q) ->
  set_first tb i v' = Return (<[N.to_nat i := (v', q)]> tb).
Proof. intros H. unfold set_first. now rewrite (at_Return _ _ _ H). Qed.

Lemma lookup_size (tb : list TableEntry) i e :
  tb !! N.to_nat i = Some e -> i < size tb.
Proof. intros H. apply lookup_lt_Some in H. unfold size. lia. Qed.

Lemma resize_grow n (tb : list TableEntry) :
  size tb <= n ->
  resize n tb = tb ++ replicate (N.to_nat (n - size tb)) (0, nullptr).
Proof.
  unfold resize, size. intros H.
  rewrite take_ge by lia. f_equal. f_equal. lia.
Qed.

Lemma GrowTable_init_id p n : forall i (tb : list TableEntry),
  (forall k, (k < n)%nat ->
     tb !! (N.to_nat i + k)%nat = Some (Handle.MIN_VERISON p, nullptr)) ->
  GrowTable_init p n i tb = tb.
Proof.
  induction n as [|n IH]; intros i tb H; simpl; [reflexivity|].
  rewrite list_insert_id.
  - apply IH. intros k Hk. replace (N.to_nat (i + 1) + k)%nat with (N.to_nat i + S k)%nat by lia.
    apply H. lia.
  - specialize (H 0%nat). rewrite Nat.add_0_r in H. apply H. lia.
Qed.

(** ** The scan for an empty slot *)

Lemma first_empty_from_None (tb : list TableEntry) : forall k,
  first_empty_from tb k = None <->
  (forall j e, tb !! j = Some e -> is_null e.2 = false).
Proof.
  induction tb as [|e tb IH]; intros k; simpl.
  - split; [intros _ j e' H; discriminate | reflexivity].
  - destruct (is_null e.2) eqn:He.
    + split; [discriminate|]. intros H. specialize (H 0%nat e eq_refl). congruence.
    + rewrite IH. split.
      * intros H [|j] e' Hj; simpl in Hj; [congruence | eauto].
      * intros H j e' Hj. apply (H (S j)). exact Hj.
Qed.

Lemma first_empty_from_Some (tb : list TableEntry) : forall k (j : nat) v,
  tb !! j = Some (v, nullptr) ->
  (forall j' e, (j' < j)%nat -> tb !! j' = Some e -> is_null e.2 = false) ->
  first_empty_from tb k = Some (k + N.of_nat j).
Proof.
  induction tb as [|e tb IH]; intros k j v Hj Hlt; [discriminate|].
  destruct j as [|j]; simpl in *.
  - injection Hj as ->. simpl. f_equal. lia.
  - rewrite (Hlt 0%nat e) by (reflexivity || lia).
    rewrite (IH (k + 1) j v Hj).
    + f_equal. lia.
    + intros j' e' Hj' He'. apply (Hlt (S j')); [lia | exact He'].
Qed.

Lemma first_empty_Some (tb : list TableEntry) i v :
  tb !! N.to_nat i = Some (v, nullptr) ->
  (forall j e, j < i -> tb !! N.to_nat j = Some e -> is_null e.2 = false) ->
  first_empty tb = Some i.
Proof.
  intros Hi Hlt. unfold first_empty.
  rewrite (first_empty_from_Some tb 0 (N.to_nat i) v Hi).
  - f_equal. lia.
  - intros j' e Hj' He. apply (Hlt (N.of_nat j')); [lia|]. now rewrite Nat2N.id.
Qed.

Lemma first_empty_inv (tb : list TableEntry) : forall k i,
  first_empty_from tb k = Some i ->
  exists (j : nat) v, i = k + N.of_nat j /\ tb !! j = Some (v, nullptr).
Proof.
  induction tb as [|[v q] tb IH]; intros k i H; simpl in H; [discriminate|].
  destruct q; simpl in H.
  - injection H as <-. exists 0%nat, v. split; [lia | reflexivity].
  - apply IH in H as (j & v' & -> & Hj). exists (S j), v'. split; [lia | exact Hj].
Qed.

(** ** The operations, computed *)

Section Operations.

Variable p : Handle.params.
Variable grow : N.
Variable NDEBUG : bool.
Variables max_version max_indices : N.
Hypothesis HV : Handle.MAX_VERSION p = Some max_version.
Hypothesis HI : Handle.MAX_INDICES p = Some max_indices.

Lemma GrowTable_Return (tb : list TableEntry) :
  size tb < max_indices ->
  size tb + grow < 2 ^ Handle.index_type_bits p ->
  GrowTable p grow NDEBUG tb =
  Return (tb ++ replicate (N.to_nat (N.min (size tb + grow) max_indices - size tb))
                          (Handle.MIN_VERISON p, nullptr)).
Proof.
  intros Hlt Hgrow. unfold GrowTable. rewrite HI. simpl.
  unfold assert_. apply N.ltb_lt in Hlt as Hb. rewrite Hb, orb_true_r. simpl.
  rewrite wrap_small by lia.
  rewrite resize_grow by lia.
  f_equal. apply GrowTable_init_id.
  intros k Hk. rewrite lookup_app_r by (unfold size; lia).
  apply lookup_replicate_2. unfold size in *. lia.
Qed.

Lemma make_fields i v :
  i < max_indices -> v <= max_version ->
  Handle.make p i v = {| Handle.index := i; Handle.version := v |}.
Proof.
  intros Hi Hv.
  apply MAX_VERSION_Some in HV as (_ & -> & _).
  apply MAX_INDICES_Some in HI as (_ & -> & _).
  unfold Handle.make. rewrite !wrap_small by lia. reflexivity.
Qed.

Lemma plus_one_exact v :
  v <= max_version -> plus_one (Handle.version_type_bits p) v = v + 1.
Proof.
  intros Hv. unfold plus_one.
  destruct (N.ltb_spec (Handle.version_type_bits p) UINT_BITS) as [H|H]; [reflexivity|].
  apply MAX_VERSION_Some in HV as (Hn & -> & _).
  apply wrap_small.
  assert (2 ^ Handle.NUM_VERSION_BITS p < 2 ^ UINT_BITS) by (apply N.pow_lt_mono_r; lia).
  assert (2 ^ UINT_BITS <= 2 ^ Handle.version_type_bits p) by (apply N.pow_le_mono_r; lia).
  assert (0 < 2 ^ Handle.NUM_VERSION_BITS p) by (apply N.neq_0_lt_0, N.pow_nonzero; lia).
  lia.
Qed.

(** The version written by an acquisition that reuses a slot of version
    [v]. *)
Lemma AqcuireHandle_reuse_Return (tb : list TableEntry) i v q rawObject :
  tb !! N.to_nat i = Some (v, q) ->
  v <= max_version ->
  size tb <= max_indices ->
  let v' := if v <? max_version then v + 1 else Handle.MIN_VERISON p in
  AqcuireHandle_reuse p tb i rawObject =
  Return ({| Handle.index := i; Handle.version := v' |},
          <[N.to_nat i := (v', rawObject)]> tb).
Proof.
  intros Hi Hv Hsz v'. unfold AqcuireHandle_reuse.
  pose proof (lookup_lt_Some _ _ _ Hi) as Hlen.
  rewrite (set_second_Return _ _ _ _ _ Hi). simpl.
  rewrite (at_Return _ i (v, rawObject)) by now apply list_lookup_insert_eq.
  simpl. rewrite HV. simpl. rewrite plus_one_exact by assumption.
  assert (Hv' : (if max_version <? v + 1 then Handle.MIN_VERISON p
                 else wrap (Handle.version_type_bits p) (v + 1)) = v').
  { subst v'. destruct (N.ltb_spec max_version (v + 1)), (N.ltb_spec v max_version);
      try lia; try reflexivity.
    apply wrap_small. apply MAX_VERSION_Some in HV as (_ & _ & ?). lia. }
  rewrite Hv'.
  rewrite (set_first_Return _ i v rawObject) by now apply list_lookup_insert_eq.
  simpl. rewrite list_insert_insert_eq.
  rewrite (at_Return _ i (v', rawObject)) by now apply list_lookup_insert_eq.
  simpl. rewrite make_fields; [reflexivity | unfold size in *; lia |].
  subst v'. destruct (N.ltb_spec v max_version); unfold Handle.MIN_VERISON; lia.
Qed.

(** The growth path: the handle carries the version the new slot had before
    the post-increment, the slot the version after it. *)
Lemma AqcuireHandle_grow_Return (tb : list TableEntry) rawObject :
  size tb < max_indices ->
  0 < grow ->
  size tb + grow < 2 ^ Handle.index_type_bits p ->
  AqcuireHandle_grow p grow NDEBUG tb rawObject =
  Return ({| Handle.index := size tb; Handle.version := Handle.MIN_VERISON p |},
          tb ++ (wrap (Handle.version_type_bits p) (Handle.MIN_VERISON p + 1), rawObject)
             :: replicate (N.to_nat (N.min (size tb + grow) max_indices - size tb) - 1)
                          (Handle.MIN_VERISON p, nullptr)).
Proof.
  intros Hlt Hg Hgrow. unfold AqcuireHandle_grow.
  rewrite GrowTable_Return by assumption. simpl.
  assert (Hn : exists n, N.to_nat (N.min (size tb + grow) max_indices - size tb) = S n).
  { exists (N.to_nat (N.min (size tb + grow) max_indices - size tb) - 1)%nat. lia. }
  destruct Hn as [n Hn]. rewrite Hn. simpl. rewrite Nat.sub_0_r.
  assert (Hsz : N.to_nat (size tb) = (length tb + 0)%nat) by (unfold size; lia).
  assert (Hat : forall e l, (tb ++ e :: l) !! N.to_nat (size tb) = Some e).
  { intros e l. rewrite Hsz. rewrite lookup_app_r by lia.
    replace (length tb + 0 - length tb)%nat with 0%nat by lia. reflexivity. }
  assert (Hins : forall e e' l,
             <[N.to_nat (size tb) := e']> (tb ++ e :: l) = tb ++ e' :: l).
  { intros e e' l. rewrite Hsz. rewrite insert_app_r. reflexivity. }
  rewrite (set_second_Return _ _ _ _ _ (Hat _ _)). simpl. rewrite Hins.
  rewrite (at_Return _ _ _ (Hat _ _)). simpl.
  rewrite (set_first_Return _ _ _ _ _ (Hat _ _)). simpl. rewrite Hins.
  rewrite make_fields; [reflexivity | assumption | unfold Handle.MIN_VERISON; lia].
Qed.

End Operations.

(** ** Occupancy, currency and the invariant *)

Lemma full_lookup (tb : list TableEntry) :
  full tb = true <-> (forall j e, tb !! j = Some e -> is_null e.2 = false).
Proof.
  unfold full. rewrite forallb_forall. split.
  - intros H j e Hj. apply negb_true_iff, H.
    apply list_elem_of_In, list_elem_of_lookup. eauto.
  - intros H e He. apply list_elem_of_In, list_elem_of_lookup in He as [j Hj].
    apply negb_true_iff. eauto.
Qed.

Lemma full_first_empty (tb : list TableEntry) :
  full tb = true -> first_empty tb = None.
Proof. intros H. apply first_empty_from_None, full_lookup, H. Qed.

Lemma not_full_first_empty (tb : list TableEntry) :
  full tb = false ->
  exists i v, first_empty tb = Some i /\ tb !! N.to_nat i = Some (v, nullptr).
Proof.
  intros H. unfold first_empty.
  destruct (first_empty_from tb 0) as [i|] eqn:Hi.
  - apply first_empty_inv in Hi as (j & v & -> & Hj).
    exists (0 + N.of_nat j), v. split; [reflexivity|].
    now replace (N.to_nat (0 + N.of_nat j)) with j by lia.
  - rewrite first_empty_from_None in Hi. apply full_lookup in Hi. congruence.
Qed.

Lemma first_empty_split (pre post : list TableEntry) v :
  full pre = true ->
  first_empty (pre ++ (v, nullptr) :: post) = Some (size pre).
Proof.
  intros Hpre. apply (first_empty_Some _ _ v).
  - unfold size. rewrite Nat2N.id. apply list_lookup_middle. reflexivity.
  - intros j e Hj He. unfold size in Hj.
    rewrite lookup_app_l in He by lia.
    revert He. apply full_lookup, Hpre.
Qed.

Lemma current_lookup (tb : list TableEntry) h :
  current tb h = true <->
  exists q, tb !! N.to_nat (Handle.index h) = Some (Handle.version h, q).
Proof.
  unfold current. split.
  - intros [_ H]%andb_prop.
    destruct (tb !! N.to_nat (Handle.index h)) as [[v q]|]; [|discriminate].
    apply N.eqb_eq in H. simpl in H. subst v. eauto.
  - intros [q H]. rewrite H. simpl. rewrite N.eqb_refl, andb_true_r.
    apply N.ltb_lt. eapply lookup_size, H.
Qed.

Lemma stale_lookup (tb : list TableEntry) h :
  stale tb h = true <->
  exists v q, tb !! N.to_nat (Handle.index h) = Some (v, q) /\ v <> Handle.version h.
Proof.
  unfold stale. split.
  - intros [_ H]%andb_prop.
    destruct (tb !! N.to_nat (Handle.index h)) as [[v q]|]; [|discriminate].
    apply negb_true_iff, N.eqb_neq in H. simpl in H. eauto.
  - intros (v & q & H & Hne). rewrite H. simpl.
    apply andb_true_intro. split.
    + apply N.ltb_lt. eapply lookup_size, H.
    + apply negb_true_iff, N.eqb_neq. congruence.
Qed.

Lemma stale_not_current (tb : list TableEntry) h :
  stale tb h = true -> current tb h = false.
Proof.
  intros (v & q & H & Hne)%stale_lookup.
  destruct (current tb h) eqn:Hc; [|reflexivity].
  apply current_lookup in Hc as [q' Hc]. congruence.
Qed.

Lemma wf_inv p (tb : list TableEntry) mv mi :
  Handle.MAX_VERSION p = Some mv ->
  Handle.MAX_INDICES p = Some mi ->
  wf p tb = true <->
  size tb <= mi /\ (forall j e, tb !! j = Some e -> e.1 <= mv).
Proof.
  intros HV HI. unfold wf. rewrite HV, HI, andb_true_iff, N.leb_le, forallb_forall.
  apply and_iff_compat_l. split.
  - intros H j e Hj. apply N.leb_le, H, list_elem_of_In, list_elem_of_lookup. eauto.
  - intros H e He. apply list_elem_of_In, list_elem_of_lookup in He as [j Hj].
    apply N.leb_le. eauto.
Qed.

Lemma wf_insert p (tb : list TableEntry) mv mi i e :
  Handle.MAX_VERSION p = Some mv ->
  Handle.MAX_INDICES p = Some mi ->
  wf p tb = true -> e.1 <= mv -> wf p (<[i := e]> tb) = true.
Proof.
  intros HV HI [Hsz Hver]%(wf_inv p tb mv mi HV HI) He.
  apply (wf_inv p _ mv mi HV HI). split.
  - unfold size in *. now rewrite length_insert.
  - intros j e' Hj. destruct (decide (i = j)) as [->|Hne].
    + destruct (decide (j < length tb)%nat).
      * rewrite list_lookup_insert_eq in Hj by assumption. congruence.
      * rewrite list_insert_ge in Hj by lia. eauto.
    + rewrite list_lookup_insert_ne in Hj by assumption. eauto.
Qed.

(** ** The constants of the two preconfigured handles *)

Lemma Handle32_constants :
  Handle.MAX_INDICES Handle32 = Some (2 ^ 20 - 1) /\
  Handle.MAX_VERSION Handle32 = Some (2 ^ 12 - 1) /\
  Handle.MIN_VERISON Handle32 = 0.
Proof. repeat split; reflexivity. Qed.

Lemma Handle64_version_constants :
  Handle.MAX_VERSION (Handle64 true) = Some (2 ^ 24 - 1) /\
  Handle.MIN_VERISON (Handle64 true) = 0.
Proof. split; reflexivity. Qed.

(** C5, at the 64-bit handle: [MAX_INDICES] of
    [Internal::Handle<u32, u64, 24, 40>] is not [2^40 - 1]. Its initialiser
    [(1U << 40) - 1U] shifts an [unsigned int] by more than its width, which
    has no defined value, and whatever an [unsigned int] shift yields, the
    subtraction is done in [unsigned int] and stays below [2^32]. *)
Theorem Handle64_MAX_INDICES_not_2_pow_40 :
  Handle.MAX_INDICES (Handle64 true) = None /\
  (forall x : N, uint_sub x 1 < 2 ^ 32 /\ uint_sub x 1 <> 2 ^ 40 - 1).
Proof.
  split; [reflexivity|]. intros x.
  assert (H : uint_sub x 1 < 2 ^ 32).
  { unfold uint_sub, wrap, UINT_BITS. apply N.mod_lt. discriminate. }
  split; [exact H|]. intros Heq. rewrite Heq in H. revert H. vm_compute. discriminate.
Qed.

(** ** The claims on the table *)

Section Claims.

Variable p : Handle.params.
Variable grow : N.
Variable NDEBUG : bool.
Variables max_version max_indices : N.
Hypothesis HV : Handle.MAX_VERSION p = Some max_version.
Hypothesis HI : Handle.MAX_INDICES p = Some max_indices.

(** C10: the constructor performs one growth step: a new table has
    [min(grow, MAX_INDICES)] slots, each [(MIN_VERISON, nullptr)]. *)
Theorem HandleTable_initial_capacity :
  0 < max_indices ->
  grow < 2 ^ Handle.index_type_bits p ->
  HandleTable p grow NDEBUG =
  Return (replicate (N.to_nat (N.min grow max_indices)) (Handle.MIN_VERISON p, nullptr)).
Proof.
  intros Hmi Hgrow. unfold HandleTable.
  rewrite (GrowTable_Return p grow NDEBUG max_indices HI []); [|exact Hmi | exact Hgrow].
  simpl. do 3 f_equal. unfold size. simpl. lia.
Qed.

(** C1, on the growth path: when no slot is empty the handle returned by
    [AqcuireHandle] is built from the new slot's version before the
    post-increment ([MIN_VERISON]) while the slot keeps the version after
    it, so the handle is expired at once and dereferencing it fails the
    assertion (and yields [nullptr] when assertions are compiled out). *)
Theorem AqcuireHandle_grow_handle_expired (tb : list TableEntry) rawObject :
  full tb = true ->
  size tb < max_indices ->
  0 < grow ->
  size tb + grow < 2 ^ Handle.index_type_bits p ->
  0 < max_version ->
  exists h tb',
    AqcuireHandle p grow NDEBUG tb rawObject = Return (h, tb') /\
    h = {| Handle.index := size tb; Handle.version := Handle.MIN_VERISON p |} /\
    tb' !! N.to_nat (size tb) = Some (Handle.MIN_VERISON p + 1, rawObject) /\
    IsExpired tb' h = Return true /\
    deref false tb' h = AssertionFailed "Invalid handle!" /\
    deref true tb' h = Return nullptr.
Proof.
  intros Hfull Hlt Hg Hgrow Hmv. unfold AqcuireHandle.
  rewrite (full_first_empty _ Hfull).
  rewrite (AqcuireHandle_grow_Return p grow NDEBUG max_version max_indices HV HI)
    by assumption.
  apply MAX_VERSION_Some in HV as (_ & _ & Hvt).
  rewrite (wrap_small _ (Handle.MIN_VERISON p + 1)) by (unfold Handle.MIN_VERISON; lia).
  eexists _, _. split; [reflexivity|]. split; [reflexivity|].
  assert (Hat : forall l : list TableEntry,
             (tb ++ (Handle.MIN_VERISON p + 1, rawObject) :: l) !! N.to_nat (size tb)
             = Some (Handle.MIN_VERISON p + 1, rawObject)).
  { intros l. unfold size. rewrite Nat2N.id. now apply list_lookup_middle. }
  split; [apply Hat|].
  unfold IsExpired, deref, current, assert_. simpl.
  rewrite (at_Return _ _ _ (Hat _)), Hat. simpl.
  rewrite andb_false_r. auto.
Qed.

End Claims.

Lemma HandleTable_initial_capacity_default :
  HandleTable Handle32 1024 false = Return (replicate 1024 (0, nullptr)).
Proof.
  apply (HandleTable_initial_capacity Handle32 1024 false (2 ^ 20 - 1) eq_refl);
    vm_compute; reflexivity.
Defined.

Lemma AqcuireHandle_grow_handle_expired_default :
  exists h tb',
    AqcuireHandle Handle32 1024 false (occupied_table 1024 1) (object 2) = Return (h, tb') /\
    h = {| Handle.index := 1024; Handle.version := 0 |} /\
    tb' !! 1024%nat = Some (1, object 2) /\
    IsExpired tb' h = Return true /\
    deref false tb' h = AssertionFailed "Invalid handle!" /\
    deref true tb' h = Return nullptr.
Proof.
  apply (AqcuireHandle_grow_handle_expired Handle32 1024 false (2 ^ 12 - 1) (2 ^ 20 - 1)
           eq_refl eq_refl (occupied_table 1024 1) (object 2));
    vm_compute; reflexivity.
Defined.

(** ** Release and dereference *)

Lemma ReleaseHandle_current NDEBUG (tb : list TableEntry) h :
  current tb h = true ->
  exists q,
    tb !! N.to_nat (Handle.index h) = Some (Handle.version h, q) /\
    ReleaseHandle NDEBUG tb h =
    Return (<[N.to_nat (Handle.index h) := (Handle.version h, nullptr)]> tb).
Proof.
  intros Hc. apply current_lookup in Hc as Hq. destruct Hq as [q Hq].
  exists q. split; [exact Hq|].
  unfold ReleaseHandle, assert_. rewrite Hc, orb_true_r. simpl.
  apply (set_second_Return _ _ _ _ _ Hq).
Qed.

(** C4: releasing a current handle writes [nullptr] into the pointer of its
    slot and nothing else: the slot keeps its version, every other slot is
    as it was, and so is the length of the table. *)
Theorem ReleaseHandle_frame NDEBUG (tb : list TableEntry) h :
  current tb h = true ->
  exists q tb',
    tb !! N.to_nat (Handle.index h) = Some (Handle.version h, q) /\
    ReleaseHandle NDEBUG tb h = Return tb' /\
    tb' !! N.to_nat (Handle.index h) = Some (Handle.version h, nullptr) /\
    (forall j, j <> N.to_nat (Handle.index h) -> tb' !! j = tb !! j) /\
    length tb' = length tb.
Proof.
  intros Hc. destruct (ReleaseHandle_current NDEBUG tb h Hc) as (q & Hq & Hrel).
  exists q. eexists. split; [exact Hq|]. split; [exact Hrel|].
  split; [|split].
  - apply list_lookup_insert_eq. eapply lookup_lt_Some, Hq.
  - intros j Hj. now apply list_lookup_insert_ne.
  - apply length_insert.
Qed.

Lemma ReleaseHandle_frame_example :
  exists q tb',
    [(3, object 1); (7, object 2)] !! 1%nat = Some (7, q) /\
    ReleaseHandle false [(3, object 1); (7, object 2)] (Handle.Fields 1 7) = Return tb' /\
    tb' !! 1%nat = Some (7, nullptr) /\
    (forall j, j <> 1%nat -> tb' !! j = [(3, object 1); (7, object 2)] !! j) /\
    length tb' = 2%nat.
Proof.
  apply (ReleaseHandle_frame false [(3, object 1); (7, object 2)] (Handle.Fields 1 7)).
  reflexivity.
Defined.

(** C2 as stated fails: after the release of a current handle the slot's
    version is not changed and the handle is not expired. *)
Lemma ReleaseHandle_expires_counterexample :
  ~ (forall NDEBUG (tb : list TableEntry) h tb',
       current tb h = true ->
       ReleaseHandle NDEBUG tb h = Return tb' ->
       (exists v q v' q',
          tb !! N.to_nat (Handle.index h) = Some (v, q) /\
          tb' !! N.to_nat (Handle.index h) = Some (v', q') /\ v' <> v) /\
       IsExpired tb' h = Return true /\
       deref NDEBUG tb' h = Return nullptr).
Proof.
  intros H.
  destruct (H false [(1, object 1)] (Handle.Fields 0 1) [(1, nullptr)] eq_refl eq_refl)
    as (_ & Hexp & _).
  discriminate Hexp.
Qed.

(** C2, amended: after the release of a current handle the slot's version
    is the one it had, [IsExpired] still answers [false] for the handle, and
    dereferencing the handle yields [nullptr]. *)
Theorem ReleaseHandle_not_expired NDEBUG (tb : list TableEntry) h :
  current tb h = true ->
  exists tb',
    ReleaseHandle NDEBUG tb h = Return tb' /\
    tb' !! N.to_nat (Handle.index h) = Some (Handle.version h, nullptr) /\
    IsExpired tb' h = Return false /\
    deref NDEBUG tb' h = Return nullptr.
Proof.
  intros Hc. apply current_lookup in Hc as Hq. destruct Hq as [q Hq].
  pose proof (lookup_lt_Some _ _ _ Hq) as Hlen.
  exists (<[N.to_nat (Handle.index h) := (Handle.version h, nullptr)]> tb).
  assert (Hat : <[N.to_nat (Handle.index h) := (Handle.version h, nullptr)]> tb
                !! N.to_nat (Handle.index h) = Some (Handle.version h, nullptr))
    by now apply list_lookup_insert_eq.
  assert (Hc' : current (<[N.to_nat (Handle.index h) := (Handle.version h, nullptr)]> tb) h
                = true) by (apply current_lookup; eauto).
  split; [|split; [exact Hat|split]].
  - unfold ReleaseHandle, assert_. rewrite Hc, orb_true_r. simpl.
    apply (set_second_Return _ _ _ _ _ Hq).
  - unfold IsExpired. rewrite (at_Return _ _ _ Hat). simpl. now rewrite N.eqb_refl.
  - unfold deref, assert_. rewrite Hc', orb_true_r. simpl.
    rewrite (at_Return _ _ _ Hat). simpl. now rewrite N.eqb_refl.
Qed.

Lemma ReleaseHandle_not_expired_example :
  exists tb',
    ReleaseHandle false [(3, object 1); (7, object 2)] (Handle.Fields 1 7) = Return tb' /\
    tb' !! 1%nat = Some (7, nullptr) /\
    IsExpired tb' (Handle.Fields 1 7) = Return false /\
    deref false tb' (Handle.Fields 1 7) = Return nullptr.
Proof.
  apply (ReleaseHandle_not_expired false [(3, object 1); (7, object 2)] (Handle.Fields 1 7)).
  reflexivity.
Defined.

(** C3 as stated fails: with assertions enabled, a stale handle given to
    [operator[](Handle)] does not come back as [nullptr]. *)
Lemma deref_stale_counterexample :
  ~ (forall (tb : list TableEntry) h,
       stale tb h = true -> deref false tb h = Return nullptr).
Proof.
  intros H. specialize (H [(2, object 1)] (Handle.Fields 0 1) eq_refl).
  discriminate H.
Qed.

(** C3, amended: for a stale handle (index inside the table, version not the
    slot's) [operator[](Handle)] fails its assertion ["Invalid handle!"];
    it is only when assertions are compiled out that it returns [nullptr]. *)
Theorem deref_stale (tb : list TableEntry) h :
  stale tb h = true ->
  deref false tb h = AssertionFailed "Invalid handle!" /\
  deref true tb h = Return nullptr.
Proof.
  intros Hs. pose proof (stale_not_current _ _ Hs) as Hc.
  apply stale_lookup in Hs as (v & q & Hq & Hne).
  unfold deref, assert_. rewrite Hc. simpl. split; [reflexivity|].
  rewrite (at_Return _ _ _ Hq). simpl.
  apply N.eqb_neq in Hne. now rewrite Hne.
Qed.

Lemma deref_stale_example :
  deref false [(2, object 1)] (Handle.Fields 0 1) = AssertionFailed "Invalid handle!" /\
  deref true [(2, object 1)] (Handle.Fields 0 1) = Return nullptr.
Proof. apply (deref_stale [(2, object 1)] (Handle.Fields 0 1)). reflexivity. Defined.

(** ** Reuse of a slot *)

Lemma insert_middle (pre post : list TableEntry) e e' :
  <[N.to_nat (size pre) := e']> (pre ++ e :: post) = pre ++ e' :: post.
Proof.
  unfold size. rewrite Nat2N.id.
  replace (length pre) with (length pre + 0)%nat at 1 by lia.
  now rewrite insert_app_r.
Qed.

Lemma next_version_mod v mv :
  v <= mv -> (if v <? mv then v + 1 else 0) = (v + 1) mod (mv + 1).
Proof.
  intros Hv. destruct (N.ltb_spec v mv) as [H|H].
  - symmetry. apply N.mod_small. lia.
  - replace v with mv by lia. symmetry. apply N.Div0.mod_same.
Qed.

Lemma mod_step a n m :
  ((a + N.of_nat n) mod m + 1) mod m = (a + N.of_nat (S n)) mod m.
Proof. rewrite N.Div0.add_mod_idemp_l. f_equal. lia. Qed.

Section Reuse.

Variable p : Handle.params.
Variable grow : N.
Variable NDEBUG : bool.
Variables max_version max_indices : N.
Hypothesis HV : Handle.MAX_VERSION p = Some max_version.
Hypothesis HI : Handle.MAX_INDICES p = Some max_indices.

(** An acquisition that finds the first empty slot at [i]. *)
Lemma AqcuireHandle_at (tb : list TableEntry) i v rawObject :
  wf p tb = true ->
  tb !! N.to_nat i = Some (v, nullptr) ->
  first_empty tb = Some i ->
  AqcuireHandle p grow NDEBUG tb rawObject =
  Return ({| Handle.index := i; Handle.version := (v + 1) mod (max_version + 1) |},
          <[N.to_nat i := ((v + 1) mod (max_version + 1), rawObject)]> tb).
Proof.
  intros Hwf Hi Hfirst. unfold AqcuireHandle. rewrite Hfirst.
  apply (wf_inv p tb _ _ HV HI) in Hwf as [Hsz Hver].
  pose proof (Hver _ _ Hi) as Hv. simpl in Hv.
  rewrite (AqcuireHandle_reuse_Return p max_version max_indices HV HI tb i v nullptr)
    by assumption.
  unfold Handle.MIN_VERISON. now rewrite next_version_mod.
Qed.

(** One release of a current handle whose slot has only occupied slots
    before it, followed by one acquisition: the slot is taken again, with
    the next version. *)
Lemma release_acquire_Return (tb : list TableEntry) h rawObject :
  wf p tb = true ->
  current tb h = true ->
  full (take (N.to_nat (Handle.index h)) tb) = true ->
  let v' := (Handle.version h + 1) mod (max_version + 1) in
  release_acquire p grow NDEBUG rawObject (h, tb) =
  Return ({| Handle.index := Handle.index h; Handle.version := v' |},
          <[N.to_nat (Handle.index h) := (v', rawObject)]> tb).
Proof.
  intros Hwf Hc Hfull v'. unfold release_acquire. simpl.
  destruct (ReleaseHandle_current NDEBUG tb h Hc) as (q & Hq & Hrel).
  rewrite Hrel. simpl.
  pose proof (lookup_lt_Some _ _ _ Hq) as Hlt.
  pose proof (proj1 (wf_inv p tb _ _ HV HI) Hwf) as [_ Hver].
  pose proof (Hver _ _ Hq) as Hv. simpl in Hv.
  rewrite (AqcuireHandle_at _ (Handle.index h) (Handle.version h)).
  - now rewrite list_insert_insert_eq.
  - now apply (wf_insert p tb _ _ _ _ HV HI Hwf).
  - now apply list_lookup_insert_eq.
  - apply (first_empty_Some _ _ (Handle.version h)).
    + now apply list_lookup_insert_eq.
    + intros j e Hj He.
      rewrite list_lookup_insert_ne in He by lia.
      rewrite <- (lookup_take_lt _ (N.to_nat (Handle.index h))) in He by lia.
      revert He. apply full_lookup, Hfull.
Qed.

Lemma release_acquire_n_Return (tb : list TableEntry) h rawObject :
  wf p tb = true ->
  current tb h = true ->
  full (take (N.to_nat (Handle.index h)) tb) = true ->
  forall n, exists tb',
    release_acquire_n p grow NDEBUG rawObject n (h, tb) =
    Return ({| Handle.index := Handle.index h;
               Handle.version := (Handle.version h + N.of_nat n) mod (max_version + 1) |},
            tb') /\
    wf p tb' = true /\
    length tb' = length tb /\
    full (take (N.to_nat (Handle.index h)) tb') = true /\
    exists q, tb' !! N.to_nat (Handle.index h) =
              Some ((Handle.version h + N.of_nat n) mod (max_version + 1), q).
Proof.
  intros Hwf Hc Hfull.
  apply current_lookup in Hc as Hq. destruct Hq as [q Hq].
  pose proof (proj1 (wf_inv p tb _ _ HV HI) Hwf) as [_ Hver].
  pose proof (Hver _ _ Hq) as Hv. simpl in Hv.
  induction n as [|n IH].
  - exists tb. simpl. rewrite N.add_0_r, N.mod_small by lia.
    destruct h. simpl. eauto 10.
  - destruct IH as (tb' & Hrun & Hwf' & Hlen' & Hfull' & q' & Hq').
    simpl. rewrite Hrun. simpl.
    rewrite release_acquire_Return; simpl; try assumption.
    + rewrite mod_step. eexists. split; [reflexivity|].
      assert (Hlt : (N.to_nat (Handle.index h) < length tb')%nat)
        by (eapply lookup_lt_Some, Hq').
      split; [|split; [|split]].
      * apply (wf_insert p tb' _ _ _ _ HV HI Hwf'). simpl.
        apply N.lt_succ_r. rewrite <- N.add_1_r. apply N.mod_lt. lia.
      * now rewrite length_insert.
      * now rewrite take_insert_ge by lia.
      * exists rawObject. now rewrite list_lookup_insert_eq by assumption.
    + apply current_lookup. simpl. eauto.
Qed.

End Reuse.

Lemma full_take n (tb : list TableEntry) : full tb = true -> full (take n tb) = true.
Proof.
  rewrite !full_lookup. intros H j e [Hj _]%lookup_take_Some. eauto.
Qed.

Section ReuseClaims.

Variable p : Handle.params.
Variable grow : N.
Variable NDEBUG : bool.
Variables max_version max_indices : N.
Hypothesis HV : Handle.MAX_VERSION p = Some max_version.
Hypothesis HI : Handle.MAX_INDICES p = Some max_indices.

(** The reuse path does what the growth path misses: the handle it returns
    is current, and dereferencing it yields the object just stored. *)
Lemma AqcuireHandle_reuse_handle_current (pre post : list TableEntry) v rawObject :
  full pre = true ->
  wf p (pre ++ (v, nullptr) :: post) = true ->
  exists h tb',
    AqcuireHandle p grow NDEBUG (pre ++ (v, nullptr) :: post) rawObject = Return (h, tb') /\
    IsExpired tb' h = Return false /\
    deref NDEBUG tb' h = Return rawObject.
Proof.
  intros Hpre Hwf.
  assert (Hat : (pre ++ (v, nullptr) :: post) !! N.to_nat (size pre) = Some (v, nullptr)).
  { unfold size. rewrite Nat2N.id. now apply list_lookup_middle. }
  pose proof (lookup_lt_Some _ _ _ Hat) as Hlt.
  eexists _, _. split.
  - apply (AqcuireHandle_at p grow NDEBUG _ _ HV HI _ (size pre) v); try assumption.
    now apply first_empty_split.
  - assert (Hc : current (<[N.to_nat (size pre) :=
                             ((v + 1) mod (max_version + 1), rawObject)]>
                            (pre ++ (v, nullptr) :: post))
                   {| Handle.index := size pre;
                      Handle.version := (v + 1) mod (max_version + 1) |} = true).
    { apply current_lookup. exists rawObject. simpl. now apply list_lookup_insert_eq. }
    unfold IsExpired, deref, assert_. rewrite Hc, orb_true_r. simpl.
    erewrite at_Return by now apply list_lookup_insert_eq.
    simpl. now rewrite N.eqb_refl.
Qed.

(** C6: first fit. When the table has an empty slot, [AqcuireHandle] takes
    the empty slot of smallest index (the one after the occupied prefix
    [pre]), returns a handle with that index and leaves every other slot
    and the length of the table as they were. In particular, when every
    slot is occupied, releasing a current handle and acquiring again
    returns the index of the released handle with the next version modulo
    [MAX_VERSION + 1], which differs from the released one; the old handle
    is expired and the new one is not. *)
Theorem AqcuireHandle_first_fit :
  (forall (pre post : list TableEntry) v rawObject,
     full pre = true ->
     wf p (pre ++ (v, nullptr) :: post) = true ->
     exists h,
       AqcuireHandle p grow NDEBUG (pre ++ (v, nullptr) :: post) rawObject =
       Return (h, pre ++ (Handle.version h, rawObject) :: post) /\
       Handle.index h = size pre) /\
  (forall (tb : list TableEntry) h rawObject,
     wf p tb = true ->
     current tb h = true ->
     full tb = true ->
     0 < max_version ->
     exists tb1 h' tb2,
       ReleaseHandle NDEBUG tb h = Return tb1 /\
       AqcuireHandle p grow NDEBUG tb1 rawObject = Return (h', tb2) /\
       Handle.index h' = Handle.index h /\
       Handle.version h' = (Handle.version h + 1) mod (max_version + 1) /\
       Handle.version h' <> Handle.version h /\
       length tb2 = length tb /\
       IsExpired tb2 h = Return true /\
       IsExpired tb2 h' = Return false /\
       deref NDEBUG tb2 h' = Return rawObject).
Proof.
  split.
  - intros pre post v rawObject Hpre Hwf.
    exists {| Handle.index := size pre;
              Handle.version := (v + 1) mod (max_version + 1) |}.
    split; [|reflexivity].
    rewrite (AqcuireHandle_at p grow NDEBUG _ _ HV HI _ (size pre) v); try assumption.
    + simpl. now rewrite insert_middle.
    + unfold size. rewrite Nat2N.id. now apply list_lookup_middle.
    + now apply first_empty_split.
  - intros tb h rawObject Hwf Hc Hfull Hmv.
    pose proof (release_acquire_Return p grow NDEBUG _ _ HV HI tb h rawObject Hwf Hc
                  (full_take _ _ Hfull)) as Hra.
    destruct (ReleaseHandle_current NDEBUG tb h Hc) as (q & Hq & Hrel).
    unfold release_acquire in Hra. simpl in Hra. rewrite Hrel in Hra. simpl in Hra.
    pose proof (lookup_lt_Some _ _ _ Hq) as Hlt.
    pose proof (proj1 (wf_inv p tb _ _ HV HI) Hwf) as [_ Hver].
    pose proof (Hver _ _ Hq) as Hv. simpl in Hv.
    assert (Hne : (Handle.version h + 1) mod (max_version + 1) <> Handle.version h).
    { rewrite <- next_version_mod by assumption.
      destruct (N.ltb_spec (Handle.version h) max_version); lia. }
    eexists _, _, _. split; [exact Hrel|]. split; [exact Hra|].
    simpl. repeat split; try assumption.
    + apply length_insert.
    + unfold IsExpired.
      erewrite at_Return by now apply list_lookup_insert_eq.
      simpl. apply N.eqb_neq in Hne. now rewrite Hne.
    + unfold IsExpired. simpl.
      erewrite at_Return by now apply list_lookup_insert_eq.
      simpl. now rewrite N.eqb_refl.
    + unfold deref, current, assert_. simpl.
      rewrite list_lookup_insert_eq by assumption. simpl.
      rewrite N.eqb_refl, andb_true_r.
      replace (Handle.index h <? size _) with true.
      * rewrite orb_true_r. simpl.
        erewrite at_Return by now apply list_lookup_insert_eq.
        simpl. now rewrite N.eqb_refl.
      * symmetry. apply N.ltb_lt. unfold size. rewrite length_insert. lia.
Qed.

(** C7: an acquisition that reuses a slot of version [v] gives it the
    version [v + 1] when [v < MAX_VERSION] and [MIN_VERISON] when
    [v = MAX_VERSION]. Hence any number of release/acquire rounds on one
    slot returns, round [n] with the version [(v + n) mod (MAX_VERSION + 1)],
    and within [MAX_VERSION + 2] rounds the version [MAX_VERSION] is
    followed by [MIN_VERISON]. *)
Theorem version_wraparound :
  (forall (pre post : list TableEntry) v rawObject,
     full pre = true ->
     wf p (pre ++ (v, nullptr) :: post) = true ->
     exists h tb',
       AqcuireHandle p grow NDEBUG (pre ++ (v, nullptr) :: post) rawObject =
       Return (h, tb') /\
       Handle.version h = (if v <? max_version then v + 1 else Handle.MIN_VERISON p) /\
       tb' !! N.to_nat (size pre) = Some (Handle.version h, rawObject)) /\
  (forall (tb : list TableEntry) h rawObject,
     wf p tb = true ->
     current tb h = true ->
     full (take (N.to_nat (Handle.index h)) tb) = true ->
     (forall n, exists h' tb',
        release_acquire_n p grow NDEBUG rawObject n (h, tb) = Return (h', tb') /\
        Handle.index h' = Handle.index h /\
        Handle.version h' = (Handle.version h + N.of_nat n) mod (max_version + 1)) /\
     (exists k h1 tb1 h2 tb2,
        N.of_nat (S k) <= max_version + 2 /\
        release_acquire_n p grow NDEBUG rawObject k (h, tb) = Return (h1, tb1) /\
        Handle.version h1 = max_version /\
        release_acquire_n p grow NDEBUG rawObject (S k) (h, tb) = Return (h2, tb2) /\
        Handle.version h2 = Handle.MIN_VERISON p)).
Proof.
  split.
  - intros pre post v rawObject Hpre Hwf.
    assert (Hat : (pre ++ (v, nullptr) :: post) !! N.to_nat (size pre) = Some (v, nullptr)).
    { unfold size. rewrite Nat2N.id. now apply list_lookup_middle. }
    pose proof (proj1 (wf_inv p _ _ _ HV HI) Hwf) as [_ Hver].
    pose proof (Hver _ _ Hat) as Hv. simpl in Hv.
    eexists _, _. split.
    + apply (AqcuireHandle_at p grow NDEBUG _ _ HV HI _ (size pre) v); try assumption.
      now apply first_empty_split.
    + simpl. split.
      * unfold Handle.MIN_VERISON. now rewrite next_version_mod.
      * apply list_lookup_insert_eq. eapply lookup_lt_Some, Hat.
  - intros tb h rawObject Hwf Hc Hfull.
    pose proof (release_acquire_n_Return p grow NDEBUG _ _ HV HI tb h rawObject Hwf Hc Hfull)
      as Hrun.
    split.
    + intros n. destruct (Hrun n) as (tb' & Hn & _). eauto.
    + apply current_lookup in Hc as [q Hq].
      pose proof (proj1 (wf_inv p tb _ _ HV HI) Hwf) as [_ Hver].
      pose proof (Hver _ _ Hq) as Hv. simpl in Hv.
      set (k := N.to_nat (max_version - Handle.version h)).
      destruct (Hrun k) as (tb1 & H1 & _). destruct (Hrun (S k)) as (tb2 & H2 & _).
      exists k. eexists _, _, _, _.
      split; [subst k; lia|]. split; [exact H1|]. split; [|split; [exact H2|]]; simpl.
      * replace (Handle.version h + N.of_nat k) with max_version by (subst k; lia).
        apply N.mod_small. lia.
      * replace (Handle.version h + N.of_nat (S k)) with (max_version + 1) by (subst k; lia).
        apply N.Div0.mod_same.
Qed.

End ReuseClaims.

Lemma AqcuireHandle_first_fit_example :
  (exists h,
     AqcuireHandle Handle32 1024 false ([(1, object 1)] ++ (3, nullptr) :: [(0, nullptr)])
       (object 2) =
     Return (h, [(1, object 1)] ++ (Handle.version h, object 2) :: [(0, nullptr)]) /\
     Handle.index h = 1) /\
  (exists tb1 h' tb2,
     ReleaseHandle false [(1, object 1); (4095, object 2)] (Handle.Fields 1 4095) = Return tb1 /\
     AqcuireHandle Handle32 1024 false tb1 (object 3) = Return (h', tb2) /\
     Handle.index h' = 1 /\
     Handle.version h' = (4095 + 1) mod (4095 + 1) /\
     Handle.version h' <> 4095 /\
     length tb2 = 2%nat /\
     IsExpired tb2 (Handle.Fields 1 4095) = Return true /\
     IsExpired tb2 h' = Return false /\
     deref false tb2 h' = Return (object 3)).
Proof.
  split.
  - apply (proj1 (AqcuireHandle_first_fit Handle32 1024 false 4095 1048575 eq_refl eq_refl));
      reflexivity.
  - apply (proj2 (AqcuireHandle_first_fit Handle32 1024 false 4095 1048575 eq_refl eq_refl)
             [(1, object 1); (4095, object 2)] (Handle.Fields 1 4095) (object 3));
      reflexivity.
Defined.

Lemma version_wraparound_example :
  (exists h tb',
     AqcuireHandle Handle32 1024 false ([] ++ (4095, nullptr) :: [(0, nullptr)]) (object 1) =
     Return (h, tb') /\
     Handle.version h = 0 /\
     tb' !! 0%nat = Some (Handle.version h, object 1)) /\
  ((forall n, exists h' tb',
      release_acquire_n Handle32 1024 false (object 2) n
        (Handle.Fields 0 1, [(1, object 1); (0, nullptr)]) = Return (h', tb') /\
      Handle.index h' = 0 /\
      Handle.version h' = (1 + N.of_nat n) mod (4095 + 1)) /\
   (exists k h1 tb1 h2 tb2,
      N.of_nat (S k) <= 4095 + 2 /\
      release_acquire_n Handle32 1024 false (object 2) k
        (Handle.Fields 0 1, [(1, object 1); (0, nullptr)]) = Return (h1, tb1) /\
      Handle.version h1 = 4095 /\
      release_acquire_n Handle32 1024 false (object 2) (S k)
        (Handle.Fields 0 1, [(1, object 1); (0, nullptr)]) = Return (h2, tb2) /\
      Handle.version h2 = 0)).
Proof.
  split.
  - apply (proj1 (version_wraparound Handle32 1024 false 4095 1048575 eq_refl eq_refl));
      reflexivity.
  - apply (proj2 (version_wraparound Handle32 1024 false 4095 1048575 eq_refl eq_refl)
             [(1, object 1); (0, nullptr)] (Handle.Fields 0 1) (object 2));
      reflexivity.
Defined.

(** ** Growth and exhaustion *)

Lemma obind_Return {A B} (m : outcome A) (k : A -> outcome B) b :
  obind m k = Return b -> exists a, m = Return a /\ k a = Return b.
Proof. destruct m; simpl; [eauto | discriminate | discriminate]. Qed.

Lemma obind_no_assertion {A B} (m : outcome A) (k : A -> outcome B) :
  no_assertion m -> (forall a, no_assertion (k a)) -> no_assertion (obind m k).
Proof.
  intros Hm Hk msg. destruct m as [a| msg' |]; simpl.
  - apply Hk.
  - destruct (Hm msg' eq_refl).
  - discriminate.
Qed.

Lemma Return_no_assertion {A} (a : A) : no_assertion (Return a).
Proof. intros msg. discriminate. Qed.

Lemma const_no_assertion {A} (c : option A) : no_assertion (const c).
Proof. intros msg. destruct c; discriminate. Qed.

Lemma set_second_no_assertion (tb : list TableEntry) i q :
  no_assertion (set_second tb i q).
Proof.
  apply obind_no_assertion; [apply const_no_assertion | intros; apply Return_no_assertion].
Qed.

Lemma set_first_no_assertion (tb : list TableEntry) i v :
  no_assertion (set_first tb i v).
Proof.
  apply obind_no_assertion; [apply const_no_assertion | intros; apply Return_no_assertion].
Qed.

Lemma AqcuireHandle_reuse_no_assertion p (tb : list TableEntry) i rawObject :
  no_assertion (AqcuireHandle_reuse p tb i rawObject).
Proof.
  unfold AqcuireHandle_reuse.
  repeat (apply obind_no_assertion;
          [first [apply set_second_no_assertion | apply set_first_no_assertion
                 | apply const_no_assertion]
          | intros ?]).
  apply Return_no_assertion.
Qed.

Lemma set_second_length (tb : list TableEntry) i q tb' :
  set_second tb i q = Return tb' -> length tb' = length tb.
Proof.
  intros (e & _ & [= <-])%obind_Return. apply length_insert.
Qed.

Lemma set_first_length (tb : list TableEntry) i v tb' :
  set_first tb i v = Return tb' -> length tb' = length tb.
Proof.
  intros (e & _ & [= <-])%obind_Return. apply length_insert.
Qed.

Lemma AqcuireHandle_reuse_length p (tb : list TableEntry) i rawObject h tb' :
  AqcuireHandle_reuse p tb i rawObject = Return (h, tb') -> length tb' = length tb.
Proof.
  unfold AqcuireHandle_reuse.
  intros (tb1 & H1 & H)%obind_Return.
  apply obind_Return in H as (e & _ & H).
  apply obind_Return in H as (mv & _ & H).
  apply obind_Return in H as (tb2 & H2 & H).
  apply obind_Return in H as (e2 & _ & [= _ <-]).
  apply set_second_length in H1. apply set_first_length in H2. congruence.
Qed.

Lemma resize_length n (tb : list TableEntry) : length (resize n tb) = N.to_nat n.
Proof. unfold resize. rewrite length_app, length_take, length_replicate. lia. Qed.

Section Growth.

Variable p : Handle.params.
Variable grow : N.
Variable NDEBUG : bool.
Variables max_version max_indices : N.
Hypothesis HV : Handle.MAX_VERSION p = Some max_version.
Hypothesis HI : Handle.MAX_INDICES p = Some max_indices.

Lemma GrowTable_at_capacity (tb : list TableEntry) :
  max_indices <= size tb ->
  GrowTable p grow false tb = AssertionFailed "Max table capacity reached!".
Proof.
  intros H. unfold GrowTable. rewrite HI. simpl. unfold assert_.
  apply N.ltb_ge in H. now rewrite H.
Qed.

Lemma AqcuireHandle_grow_at_capacity (tb : list TableEntry) rawObject r :
  max_indices <= size tb ->
  AqcuireHandle_grow p grow NDEBUG tb rawObject <> Return r.
Proof.
  intros H. unfold AqcuireHandle_grow, GrowTable. rewrite HI. simpl. unfold assert_.
  apply N.ltb_ge in H as Hb. rewrite Hb, orb_false_r.
  destruct NDEBUG; simpl; [|discriminate].
  replace (N.to_nat (N.min (wrap (Handle.index_type_bits p) (size tb + grow)) max_indices
                     - size tb)) with 0%nat by lia.
  simpl. unfold set_second, at_.
  rewrite lookup_ge_None_2; [simpl; discriminate|].
  rewrite resize_length. lia.
Qed.

Hypothesis Hgrow_pos : 0 < grow.
Hypothesis Hgrow_fits : max_indices + grow <= 2 ^ Handle.index_type_bits p.

Lemma AqcuireHandle_length (tb : list TableEntry) rawObject h tb' :
  size tb <= max_indices ->
  AqcuireHandle p grow NDEBUG tb rawObject = Return (h, tb') ->
  (length tb <= length tb')%nat /\ size tb' <= max_indices.
Proof.
  intros Hsz. unfold AqcuireHandle. destruct (first_empty tb) as [i|].
  - intros H%AqcuireHandle_reuse_length. unfold size in *. rewrite H. lia.
  - destruct (N.ltb_spec (size tb) max_indices) as [Hlt|Hge].
    + rewrite (AqcuireHandle_grow_Return p grow NDEBUG _ _ HV HI) by (assumption || lia).
      intros [= _ <-]. unfold size in *.
      rewrite length_app. simpl. rewrite length_replicate. lia.
    + intros H. now apply AqcuireHandle_grow_at_capacity in H.
Qed.

Lemma ReleaseHandle_length (tb : list TableEntry) h tb' :
  ReleaseHandle NDEBUG tb h = Return tb' -> length tb' = length tb.
Proof.
  unfold ReleaseHandle. intros (_ & _ & H)%obind_Return.
  now apply set_second_length in H.
Qed.

Lemma do_call_length (tb : list TableEntry) c tb' :
  size tb <= max_indices ->
  do_call p grow NDEBUG tb c = Return tb' ->
  (length tb <= length tb')%nat /\ size tb' <= max_indices.
Proof.
  intros Hsz. destruct c as [rawObject | h | h | i | h]; simpl.
  - intros ([h tb1] & H & [= <-])%obind_Return. simpl.
    now apply AqcuireHandle_length in H.
  - intros H%ReleaseHandle_length. unfold size in *. rewrite H. lia.
  - intros (_ & _ & [= <-])%obind_Return. lia.
  - intros (_ & _ & [= <-])%obind_Return. lia.
  - intros (_ & _ & [= <-])%obind_Return. lia.
Qed.

Lemma do_calls_length cs : forall (tb tb' : list TableEntry),
  size tb <= max_indices ->
  do_calls p grow NDEBUG tb cs = Return tb' ->
  (length tb <= length tb')%nat.
Proof.
  induction cs as [|c cs IH]; intros tb tb' Hsz; simpl.
  - intros [= <-]. lia.
  - intros (tb1 & H1 & H)%obind_Return.
    apply do_call_length in H1 as [Hle Hsz1]; [|assumption].
    apply IH in H; [lia | assumption].
Qed.

(** C8: when no slot is empty and the table is shorter than [MAX_INDICES],
    [GrowTable] appends slots [(MIN_VERISON, nullptr)] up to the length
    [min(L + grow, MAX_INDICES)], and the acquisition that called it leaves
    the slots that existed as they were and takes the first new one. No
    other operation changes the length of the table, and over any sequence
    of calls the length does not decrease. *)
Theorem table_growth :
  (forall (tb : list TableEntry),
     size tb < max_indices ->
     GrowTable p grow NDEBUG tb =
     Return (tb ++ replicate (N.to_nat (N.min (size tb + grow) max_indices - size tb))
                             (Handle.MIN_VERISON p, nullptr))) /\
  (forall (tb : list TableEntry) rawObject,
     full tb = true ->
     size tb < max_indices ->
     exists h tb',
       AqcuireHandle p grow NDEBUG tb rawObject = Return (h, tb') /\
       size tb' = N.min (size tb + grow) max_indices /\
       take (length tb) tb' = tb /\
       (exists v, tb' !! length tb = Some (v, rawObject)) /\
       (forall j, (length tb < j < length tb')%nat ->
                  tb' !! j = Some (Handle.MIN_VERISON p, nullptr))) /\
  (forall (tb : list TableEntry) h tb',
     ReleaseHandle NDEBUG tb h = Return tb' -> length tb' = length tb) /\
  (forall (tb : list TableEntry) rawObject h tb',
     full tb = false ->
     AqcuireHandle p grow NDEBUG tb rawObject = Return (h, tb') ->
     length tb' = length tb) /\
  (forall cs (tb tb' : list TableEntry),
     size tb <= max_indices ->
     do_calls p grow NDEBUG tb cs = Return tb' ->
     (length tb <= length tb')%nat).
Proof.
  split; [|split; [|split; [|split]]].
  - intros tb Hlt. apply (GrowTable_Return p grow NDEBUG _ HI); [assumption | lia].
  - intros tb rawObject Hfull Hlt. unfold AqcuireHandle.
    rewrite (full_first_empty _ Hfull).
    rewrite (AqcuireHandle_grow_Return p grow NDEBUG _ _ HV HI) by (assumption || lia).
    eexists _, _. split; [reflexivity|].
    split; [|split; [|split]].
    + unfold size. rewrite length_app. simpl. rewrite length_replicate.
      unfold size in Hlt. lia.
    + apply take_app_length.
    + eexists. now apply list_lookup_middle.
    + intros j [Hj1 Hj2]. rewrite lookup_app_r by lia.
      rewrite length_app in Hj2. simpl in Hj2. rewrite length_replicate in Hj2.
      destruct (j - length tb)%nat as [|m] eqn:Hm; [lia|]. simpl.
      apply lookup_replicate_2. lia.
  - intros tb h tb'. apply ReleaseHandle_length.
  - intros tb rawObject h tb' Hnf.
    apply not_full_first_empty in Hnf as (i & v & Hfirst & _).
    unfold AqcuireHandle. rewrite Hfirst. apply AqcuireHandle_reuse_length.
  - intros cs tb tb'. apply do_calls_length.
Qed.

(** C9: with assertions enabled, an acquisition on a table without empty
    slot whose length has reached [MAX_INDICES] fails the assertion
    ["Max table capacity reached!"] instead of returning; an acquisition
    on a table that is below [MAX_INDICES], or that has an empty slot,
    fails no assertion, and it returns. *)
Theorem AqcuireHandle_exhaustion :
  (forall (tb : list TableEntry) rawObject,
     full tb = true ->
     max_indices <= size tb ->
     AqcuireHandle p grow false tb rawObject =
     AssertionFailed "Max table capacity reached!") /\
  (forall (tb : list TableEntry) rawObject,
     size tb < max_indices \/ full tb = false ->
     no_assertion (AqcuireHandle p grow NDEBUG tb rawObject)) /\
  (forall (tb : list TableEntry) rawObject,
     wf p tb = true ->
     size tb < max_indices \/ full tb = false ->
     exists h tb', AqcuireHandle p grow NDEBUG tb rawObject = Return (h, tb')).
Proof.
  split; [|split].
  - intros tb rawObject Hfull Hcap. unfold AqcuireHandle, AqcuireHandle_grow.
    rewrite (full_first_empty _ Hfull). now rewrite GrowTable_at_capacity.
  - intros tb rawObject Hor. unfold AqcuireHandle.
    destruct (first_empty tb) as [i|] eqn:Hfirst.
    + apply AqcuireHandle_reuse_no_assertion.
    + destruct Hor as [Hlt|Hnf].
      * rewrite (AqcuireHandle_grow_Return p grow NDEBUG _ _ HV HI) by (assumption || lia).
        apply Return_no_assertion.
      * apply not_full_first_empty in Hnf as (i & v & Hi & _). congruence.
  - intros tb rawObject Hwf Hor.
    destruct (first_empty tb) as [i|] eqn:Hfirst.
    + apply first_empty_inv in Hfirst as Hinv. destruct Hinv as (j & v & -> & Hj).
      rewrite (AqcuireHandle_at p grow NDEBUG _ _ HV HI tb (0 + N.of_nat j) v); eauto.
      now replace (N.to_nat (0 + N.of_nat j)) with j by lia.
    + unfold AqcuireHandle. rewrite Hfirst. destruct Hor as [Hlt|Hnf].
      * rewrite (AqcuireHandle_grow_Return p grow NDEBUG _ _ HV HI) by (assumption || lia).
        eauto.
      * apply not_full_first_empty in Hnf as (i & v & Hi & _). congruence.
Qed.

End Growth.

Lemma table_growth_example :
  exists h tb',
    AqcuireHandle Handle32 1024 false (occupied_table 1024 1) (object 2) = Return (h, tb') /\
    size tb' = N.min (size (occupied_table 1024 1) + 1024) 1048575 /\
    take (length (occupied_table 1024 1)) tb' = occupied_table 1024 1 /\
    (exists v, tb' !! length (occupied_table 1024 1) = Some (v, object 2)) /\
    (forall j, (length (occupied_table 1024 1) < j < length tb')%nat ->
               tb' !! j = Some (Handle.MIN_VERISON Handle32, nullptr)).
Proof.
  assert (H0 : 0 < 1024) by reflexivity.
  assert (H1 : 1048575 + 1024 <= 2 ^ Handle.index_type_bits Handle32)
    by (vm_compute; discriminate).
  apply (proj1 (proj2 (table_growth Handle32 1024 false 4095 1048575 eq_refl eq_refl H0 H1))
           (occupied_table 1024 1) (object 2));
    vm_compute; reflexivity.
Defined.

Lemma AqcuireHandle_exhaustion_example :
  AqcuireHandle (Handle.Params 16 32 12 2) 2 false (occupied_table 3 1) (object 2) =
  AssertionFailed "Max table capacity reached!" /\
  no_assertion (AqcuireHandle (Handle.Params 16 32 12 2) 2 false (occupied_table 2 1) (object 2)) /\
  exists h tb',
    AqcuireHandle (Handle.Params 16 32 12 2) 2 false (occupied_table 2 1) (object 2) =
    Return (h, tb').
Proof.
  assert (H0 : 0 < 2) by reflexivity.
  assert (H1 : 3 + 2 <= 2 ^ Handle.index_type_bits (Handle.Params 16 32 12 2))
    by (vm_compute; discriminate).
  pose proof (AqcuireHandle_exhaustion (Handle.Params 16 32 12 2) 2 false 4095 3
                eq_refl eq_refl H0 H1) as (Hfail & Hno & Hret).
  split; [|split].
  - apply Hfail; [reflexivity | vm_compute; discriminate].
  - apply Hno. left. reflexivity.
  - apply Hret; [reflexivity | left; reflexivity].
Defined.

(** ** The invariant holds in every table the operations produce *)

Section Invariant.

Variable p : Handle.params.
Variable grow : N.
Variable NDEBUG : bool.
Variables max_version max_indices : N.
Hypothesis HV : Handle.MAX_VERSION p = Some max_version.
Hypothesis HI : Handle.MAX_INDICES p = Some max_indices.
Hypothesis Hversion : 0 < max_version.
Hypothesis Hgrow_pos : 0 < grow.
Hypothesis Hgrow_fits : max_indices + grow <= 2 ^ Handle.index_type_bits p.

Lemma HandleTable_wf (tb : list TableEntry) :
  HandleTable p grow NDEBUG = Return tb -> wf p tb = true.
Proof.
  unfold HandleTable.
  destruct (N.ltb_spec 0 max_indices) as [Hmi|Hmi].
  - rewrite (GrowTable_Return p grow NDEBUG _ HI) by (unfold size; simpl; lia).
    intros [= <-]. apply (wf_inv p _ _ _ HV HI). simpl. split.
    + unfold size. rewrite length_replicate. simpl. lia.
    + intros j e [-> _]%lookup_replicate_1. unfold Handle.MIN_VERISON. simpl. lia.
  - unfold GrowTable. rewrite HI. simpl.
    replace max_indices with 0 in * by lia. rewrite N.min_0_r. simpl.
    intros (_ & _ & [= <-])%obind_Return.
    apply (wf_inv p _ _ _ HV HI). split; [unfold size; simpl; lia | intros j e; discriminate].
Qed.

Lemma AqcuireHandle_wf (tb : list TableEntry) rawObject h tb' :
  wf p tb = true ->
  AqcuireHandle p grow NDEBUG tb rawObject = Return (h, tb') ->
  wf p tb' = true.
Proof.
  intros Hwf. destruct (first_empty tb) as [i|] eqn:Hfirst.
  - apply first_empty_inv in Hfirst as Hinv. destruct Hinv as (j & v & -> & Hj).
    rewrite (AqcuireHandle_at p grow NDEBUG _ _ HV HI tb (0 + N.of_nat j) v);
      [| assumption | now replace (N.to_nat (0 + N.of_nat j)) with j by lia | assumption].
    intros [= _ <-]. apply (wf_insert p tb _ _ _ _ HV HI Hwf). simpl.
    apply N.lt_succ_r. rewrite <- N.add_1_r. apply N.mod_lt. lia.
  - unfold AqcuireHandle. rewrite Hfirst.
    pose proof (proj1 (wf_inv p tb _ _ HV HI) Hwf) as [Hsz Hver].
    destruct (N.ltb_spec (size tb) max_indices) as [Hlt|Hge].
    + rewrite (AqcuireHandle_grow_Return p grow NDEBUG _ _ HV HI) by (assumption || lia).
      intros [= _ <-]. apply (wf_inv p _ _ _ HV HI). split.
      * unfold size in *. rewrite length_app. simpl. rewrite length_replicate. lia.
      * intros j e Hj. apply lookup_app_Some in Hj as [Hj|[_ Hj]]; [eauto|].
        destruct (j - length tb)%nat as [|m]; simpl in Hj.
        -- injection Hj as <-. simpl.
           apply MAX_VERSION_Some in HV as (_ & _ & Hvt).
           rewrite wrap_small; unfold Handle.MIN_VERISON; lia.
        -- apply lookup_replicate_1 in Hj as [-> _]. unfold Handle.MIN_VERISON. simpl. lia.
    + intros H. now apply (AqcuireHandle_grow_at_capacity p grow NDEBUG _ HI) in H.
Qed.

Lemma ReleaseHandle_wf (tb : list TableEntry) h tb' :
  wf p tb = true ->
  ReleaseHandle NDEBUG tb h = Return tb' ->
  wf p tb' = true.
Proof.
  intros Hwf. unfold ReleaseHandle, set_second, at_.
  intros (_ & _ & H)%obind_Return.
  apply obind_Return in H as (e & He & [= <-]).
  destruct (tb !! N.to_nat (Handle.index h)) as [e'|] eqn:Hq; [|discriminate].
  injection He as ->.
  apply (wf_insert p tb _ _ _ _ HV HI Hwf). simpl.
  apply (wf_inv p tb _ _ HV HI) in Hwf as [_ Hver]. apply (Hver _ _ Hq).
Qed.

Lemma do_calls_wf cs : forall (tb tb' : list TableEntry),
  wf p tb = true ->
  do_calls p grow NDEBUG tb cs = Return tb' ->
  wf p tb' = true.
Proof.
  induction cs as [|c cs IH]; intros tb tb' Hwf; simpl.
  - now intros [= <-].
  - intros (tb1 & H1 & H)%obind_Return. apply (IH tb1 tb'); [|exact H].
    destruct c as [rawObject | h | h | i | h]; simpl in H1.
    + apply obind_Return in H1 as ([h tb2] & H1 & [= <-]).
      now apply AqcuireHandle_wf in H1.
    + now apply ReleaseHandle_wf in H1.
    + now apply obind_Return in H1 as (_ & _ & [= <-]).
    + now apply obind_Return in H1 as (_ & _ & [= <-]).
    + now apply obind_Return in H1 as (_ & _ & [= <-]).
Qed.

End Invariant.

(** ** The life of a slot in a new table *)

Example fresh_table_first_handle :
  (let! tb0 := HandleTable Handle32 1024 false in
   let! r1 := AqcuireHandle Handle32 1024 false tb0 (object 1) in
   let! e1 := IsExpired r1.2 r1.1 in
   let! o1 := deref false r1.2 r1.1 in
   let! tb2 := ReleaseHandle false r1.2 r1.1 in
   let! e2 := IsExpired tb2 r1.1 in
   let! o2 := deref false tb2 r1.1 in
   let! r3 := AqcuireHandle Handle32 1024 false tb2 (object 2) in
   let! e3 := IsExpired r3.2 r1.1 in
   let! e4 := IsExpired r3.2 r3.1 in
   Return (r1.1, e1, o1, e2, o2, r3.1, e3, e4)) =
  Return (Handle.Fields 0 1, false, object 1, false, nullptr, Handle.Fields 0 2, true, false).
Proof. vm_compute. reflexivity. Qed.

Example fresh_table_filled :
  (let! tb0 := HandleTable Handle32 1024 false in
   do_calls Handle32 1024 false tb0 (replicate 1024 (CallAqcuireHandle (object 1)))) =
  Return (occupied_table 1024 1).
Proof. vm_compute. reflexivity. Qed.

Example fresh_table_grown_handle :
  (let! r := AqcuireHandle Handle32 1024 false (occupied_table 1024 1) (object 2) in
   let! e := IsExpired r.2 r.1 in
   Return (r.1, length r.2, r.2 !! 1024%nat, e, deref false r.2 r.1,
           ReleaseHandle false r.2 r.1)) =
  Return (Handle.Fields 1024 0, 2048%nat, Some (1, object 2), true,
          AssertionFailed "Invalid handle!", AssertionFailed "Invalid handle!").
Proof. vm_compute. reflexivity. Qed.

Example wraparound_4097_rounds :
  (let! r := release_acquire_n Handle32 1024 false (object 2) 4097
               (Handle.Fields 0 1, (1, object 1) :: replicate 1023 (0, nullptr)) in
   Return r.1) =
  Return (Handle.Fields 0 2).
Proof. vm_compute. reflexivity. Qed.

(** * Further properties of the operations *)

(** ** The constants, for any instantiation *)

(** For any instantiation of [Internal::Handle], [MAX_INDICES] has a value
    exactly when [NUM_INDEX_BITS] is below the 32 bits of [1U] and
    [2^NUM_INDEX_BITS - 1] fits [index_type], and that value is
    [2^NUM_INDEX_BITS - 1]; likewise [MAX_VERSION] with [NUM_VERSION_BITS]
    and [version_type]. *)
Theorem Handle_constants_defined (p : Handle.params) (m : N) :
  (Handle.MAX_INDICES p = Some m <->
   Handle.NUM_INDEX_BITS p < 32 /\ m = 2 ^ Handle.NUM_INDEX_BITS p - 1 /\
   m < 2 ^ Handle.index_type_bits p) /\
  (Handle.MAX_VERSION p = Some m <->
   Handle.NUM_VERSION_BITS p < 32 /\ m = 2 ^ Handle.NUM_VERSION_BITS p - 1 /\
   m < 2 ^ Handle.version_type_bits p).
Proof.
  assert (Hgen : forall bits tbits,
    match uint_shl 1 bits with
    | Some x => brace_init tbits (uint_sub x 1)
    | None => None
    end = Some m <->
    bits < 32 /\ m = 2 ^ bits - 1 /\ m < 2 ^ tbits).
  { intros bits tbits. split.
    - destruct (uint_shl 1 bits) as [x|] eqn:Hx; [|discriminate].
      apply uint_shl_1 in Hx as [Hn ->]. intros [-> Hlt]%brace_init_Some.
      rewrite uint_sub_pow in * by assumption. auto.
    - intros (Hn & -> & Hlt).
      assert (Hs : uint_shl 1 bits = Some (2 ^ bits)).
      { unfold uint_shl. fold UINT_BITS in Hn. apply N.ltb_lt in Hn as Hb. rewrite Hb.
        rewrite N.mul_1_l, wrap_small; [reflexivity|]. apply N.pow_lt_mono_r; lia. }
      rewrite Hs, uint_sub_pow by exact Hn.
      unfold brace_init. apply N.ltb_lt in Hlt. now rewrite Hlt. }
  split; apply Hgen.
Qed.

(** ** Looking a handle up *)

(** [IsExpired] checks no bounds: for an index inside the table it answers
    whether the handle differs from the slot's version, which is the
    negation of the condition [ReleaseHandle] and [operator[](Handle)]
    assert; for an index outside it reads outside the vector. It fails no
    assertion. *)
Theorem IsExpired_cases (tb : list TableEntry) (h : Handle.t) :
  IsExpired tb h =
  (if Handle.index h <? size tb then Return (negb (current tb h)) else Undefined) /\
  ((Handle.index h <? size tb) = true -> stale tb h = negb (current tb h)) /\
  no_assertion (IsExpired tb h).
Proof.
  split; [|split].
  - unfold IsExpired, current, at_.
    destruct (N.ltb_spec (Handle.index h) (size tb)) as [Hlt|Hge].
    + destruct (tb !! N.to_nat (Handle.index h)) as [[v q]|] eqn:Hq.
      * simpl. now rewrite (N.eqb_sym v).
      * apply lookup_ge_None in Hq. unfold size in Hlt. lia.
    + now rewrite lookup_ge_None_2 by (unfold size in Hge; lia).
  - intros Hlt. unfold stale, current. rewrite Hlt. simpl.
    destruct (tb !! N.to_nat (Handle.index h)) as [[v q]|] eqn:Hq; [reflexivity|].
    apply lookup_ge_None in Hq. apply N.ltb_lt in Hlt. unfold size in Hlt. lia.
  - apply obind_no_assertion; [apply const_no_assertion | intros; apply Return_no_assertion].
Qed.

Lemma IsExpired_cases_example :
  stale [(3, object 1); (7, nullptr)] (Handle.Fields 1 6) =
  negb (current [(3, object 1); (7, nullptr)] (Handle.Fields 1 6)).
Proof.
  apply (proj1 (proj2 (IsExpired_cases [(3, object 1); (7, nullptr)] (Handle.Fields 1 6)))).
  reflexivity.
Defined.

(** With assertions enabled, [operator[](Handle)] returns exactly for the
    handles whose index is inside the table and whose version is the
    slot's, and it returns the slot's pointer; every other handle fails the
    assertion ["Invalid handle!"]. *)
Theorem deref_Return_iff (tb : list TableEntry) (h : Handle.t) :
  (forall q, deref false tb h = Return q <->
             tb !! N.to_nat (Handle.index h) = Some (Handle.version h, q)) /\
  (current tb h = false -> deref false tb h = AssertionFailed "Invalid handle!").
Proof.
  split.
  - intros q. unfold deref, assert_. simpl.
    destruct (current tb h) eqn:Hc.
    + apply current_lookup in Hc as [q' Hq]. simpl.
      rewrite (at_Return _ _ _ Hq). simpl. rewrite N.eqb_refl, Hq.
      split; congruence.
    + simpl. split; [discriminate|]. intros Hq.
      assert (current tb h = true) by (apply current_lookup; eauto). congruence.
  - intros Hc. unfold deref, assert_. now rewrite Hc.
Qed.

Lemma deref_Return_iff_example :
  deref false [(3, object 1)] (Handle.Fields 1 3) = AssertionFailed "Invalid handle!".
Proof.
  apply (proj2 (deref_Return_iff [(3, object 1)] (Handle.Fields 1 3))). reflexivity.
Defined.

(** [operator[](index_type)] outside the table: the assertion
    ["Invalid handle!"] fails; with assertions compiled out the read is
    outside the vector. *)
Theorem handle_at_out_of_range (p : Handle.params) (tb : list TableEntry) (i : N) :
  size tb <= i ->
  handle_at p false tb i = AssertionFailed "Invalid handle!" /\
  handle_at p true tb i = Undefined.
Proof.
  intros Hge. unfold handle_at, assert_, at_. apply N.ltb_ge in Hge as Hb. rewrite Hb.
  simpl. split; [reflexivity|].
  rewrite lookup_ge_None_2 by (unfold size in Hge; lia). reflexivity.
Qed.

Lemma handle_at_out_of_range_example :
  handle_at Handle32 false [(3, object 1)] 1 = AssertionFailed "Invalid handle!" /\
  handle_at Handle32 true [(3, object 1)] 1 = Undefined.
Proof.
  apply (handle_at_out_of_range Handle32 [(3, object 1)] 1). vm_compute. discriminate.
Defined.

(** ** Releasing twice, releasing a handle that is not current *)

(** A second release of the same handle is accepted: the release leaves
    the handle current, so the assertion of the second release holds and
    the table stays as the first release left it. *)
Theorem ReleaseHandle_twice NDEBUG (tb : list TableEntry) (h : Handle.t) :
  current tb h = true ->
  exists tb',
    ReleaseHandle NDEBUG tb h = Return tb' /\
    current tb' h = true /\
    ReleaseHandle NDEBUG tb' h = Return tb'.
Proof.
  intros Hc. destruct (ReleaseHandle_current NDEBUG tb h Hc) as (q & Hq & Hrel).
  pose proof (lookup_lt_Some _ _ _ Hq) as Hlt.
  eexists. split; [exact Hrel|].
  assert (Hc' : current (<[N.to_nat (Handle.index h) := (Handle.version h, nullptr)]> tb) h
                = true).
  { apply current_lookup. exists nullptr. now apply list_lookup_insert_eq. }
  split; [exact Hc'|].
  destruct (ReleaseHandle_current NDEBUG _ h Hc') as (q' & _ & Hrel').
  rewrite Hrel'. now rewrite list_insert_insert_eq.
Qed.

Lemma ReleaseHandle_twice_example :
  exists tb',
    ReleaseHandle false [(3, object 1); (7, object 2)] (Handle.Fields 1 7) = Return tb' /\
    current tb' (Handle.Fields 1 7) = true /\
    ReleaseHandle false tb' (Handle.Fields 1 7) = Return tb'.
Proof.
  apply (ReleaseHandle_twice false [(3, object 1); (7, object 2)] (Handle.Fields 1 7)).
  reflexivity.
Defined.

(** Releasing a handle that is not current (index outside the table, or a
    version that is not the slot's) fails the assertion ["Invalid handle!"].
    With assertions compiled out, the release of a stale handle goes
    through and clears the pointer of the slot, so that the handle that is
    current for that slot dereferences to [nullptr] afterwards. *)
Theorem ReleaseHandle_not_current (tb : list TableEntry) (h : Handle.t) :
  (current tb h = false ->
   ReleaseHandle false tb h = AssertionFailed "Invalid handle!") /\
  (stale tb h = true ->
   exists v q,
     tb !! N.to_nat (Handle.index h) = Some (v, q) /\
     v <> Handle.version h /\
     ReleaseHandle true tb h =
     Return (<[N.to_nat (Handle.index h) := (v, nullptr)]> tb) /\
     deref true (<[N.to_nat (Handle.index h) := (v, nullptr)]> tb)
       {| Handle.index := Handle.index h; Handle.version := v |} = Return nullptr).
Proof.
  split.
  - intros Hc. unfold ReleaseHandle, assert_. now rewrite Hc.
  - intros (v & q & Hq & Hne)%stale_lookup. exists v, q.
    pose proof (lookup_lt_Some _ _ _ Hq) as Hlt.
    split; [exact Hq|]. split; [exact Hne|]. split.
    + unfold ReleaseHandle, assert_. simpl. apply (set_second_Return _ _ _ _ _ Hq).
    + unfold deref, assert_. simpl.
      erewrite at_Return by now apply list_lookup_insert_eq.
      simpl. now rewrite N.eqb_refl.
Qed.

Lemma ReleaseHandle_not_current_example :
  ReleaseHandle false [(2, object 1)] (Handle.Fields 0 1) = AssertionFailed "Invalid handle!" /\
  exists v q,
    [(2, object 1)] !! 0%nat = Some (v, q) /\
    v <> 1 /\
    ReleaseHandle true [(2, object 1)] (Handle.Fields 0 1) =
    Return (<[0%nat := (v, nullptr)]> [(2, object 1)]) /\
    deref true (<[0%nat := (v, nullptr)]> [(2, object 1)])
      {| Handle.index := 0; Handle.version := v |} = Return nullptr.
Proof.
  split.
  - apply (proj1 (ReleaseHandle_not_current [(2, object 1)] (Handle.Fields 0 1))).
    reflexivity.
  - apply (proj2 (ReleaseHandle_not_current [(2, object 1)] (Handle.Fields 0 1))).
    reflexivity.
Defined.

(** ** What an acquisition touches *)

Section Acquisition.

Variable p : Handle.params.
Variable grow : N.
Variable NDEBUG : bool.
Variables max_version max_indices : N.
Hypothesis HV : Handle.MAX_VERSION p = Some max_version.
Hypothesis HI : Handle.MAX_INDICES p = Some max_indices.

(** The handle [operator[](index_type)] builds for a slot of the table is
    the current one for it. *)
Lemma handle_at_Return (tb : list TableEntry) i v q :
  wf p tb = true ->
  tb !! N.to_nat i = Some (v, q) ->
  handle_at p NDEBUG tb i = Return {| Handle.index := i; Handle.version := v |}.
Proof.
  intros Hwf Hq. apply (wf_inv p tb _ _ HV HI) in Hwf as [Hsz Hver].
  pose proof (lookup_size _ _ _ Hq) as Hlt.
  unfold handle_at, assert_. apply N.ltb_lt in Hlt as Hb. rewrite Hb, orb_true_r. simpl.
  rewrite (at_Return _ _ _ Hq). simpl.
  rewrite (make_fields p _ _ HV HI); [reflexivity | lia | apply (Hver _ _ Hq)].
Qed.

Hypothesis Hgrow_pos : 0 < grow.
Hypothesis Hgrow_fits : max_indices + grow <= 2 ^ Handle.index_type_bits p.

(** Where an acquisition writes: into a slot that was empty or did not
    exist, and nowhere else in the slots that existed. *)
Lemma AqcuireHandle_effect (tb : list TableEntry) rawObject h tb' :
  wf p tb = true ->
  AqcuireHandle p grow NDEBUG tb rawObject = Return (h, tb') ->
  (tb !! N.to_nat (Handle.index h) = None \/
   exists v, tb !! N.to_nat (Handle.index h) = Some (v, nullptr)) /\
  (exists v, tb' !! N.to_nat (Handle.index h) = Some (v, rawObject)) /\
  (forall j, j <> N.to_nat (Handle.index h) -> (j < length tb)%nat ->
             tb' !! j = tb !! j).
Proof.
  intros Hwf. destruct (first_empty tb) as [i|] eqn:Hfirst.
  - apply first_empty_inv in Hfirst as Hinv. destruct Hinv as (j & v & -> & Hj).
    assert (Hj' : tb !! N.to_nat (0 + N.of_nat j) = Some (v, nullptr))
      by now replace (N.to_nat (0 + N.of_nat j)) with j by lia.
    rewrite (AqcuireHandle_at p grow NDEBUG _ _ HV HI tb (0 + N.of_nat j) v)
      by assumption.
    intros [= <- <-]. simpl. split; [right; eauto|]. split.
    + eexists. apply list_lookup_insert_eq. eapply lookup_lt_Some, Hj'.
    + intros k Hk _. now apply list_lookup_insert_ne.
  - unfold AqcuireHandle. rewrite Hfirst.
    pose proof (proj1 (wf_inv p tb _ _ HV HI) Hwf) as [Hsz _].
    destruct (N.ltb_spec (size tb) max_indices) as [Hlt|Hge].
    + rewrite (AqcuireHandle_grow_Return p grow NDEBUG _ _ HV HI) by (assumption || lia).
      intros [= <- <-]. simpl. unfold size. rewrite Nat2N.id. split; [|split].
      * left. now apply lookup_ge_None_2.
      * eexists. now apply list_lookup_middle.
      * intros k _ Hk. now apply lookup_app_l.
    + intros H. now apply (AqcuireHandle_grow_at_capacity p grow NDEBUG _ HI) in H.
Qed.

End Acquisition.

Section TableUse.

Variable p : Handle.params.
Variable grow : N.
Variable NDEBUG : bool.
Variables max_version max_indices : N.
Hypothesis HV : Handle.MAX_VERSION p = Some max_version.
Hypothesis HI : Handle.MAX_INDICES p = Some max_indices.

(** For an index inside the table, [operator[](index_type)] returns the
    handle made of that index and the slot's version; this handle is not
    expired and dereferences to the slot's pointer. *)
Theorem handle_at_current (tb : list TableEntry) i v q :
  wf p tb = true ->
  tb !! N.to_nat i = Some (v, q) ->
  exists h,
    handle_at p NDEBUG tb i = Return h /\
    Handle.index h = i /\ Handle.version h = v /\
    IsExpired tb h = Return false /\
    deref NDEBUG tb h = Return q.
Proof.
  intros Hwf Hq. eexists. split; [now apply (handle_at_Return p NDEBUG _ _ HV HI tb i v q)|].
  simpl. split; [reflexivity|]. split; [reflexivity|].
  assert (Hc : current tb {| Handle.index := i; Handle.version := v |} = true)
    by (apply current_lookup; simpl; eauto).
  unfold IsExpired, deref, assert_. rewrite Hc, orb_true_r. simpl.
  rewrite (at_Return _ _ _ Hq). simpl. now rewrite N.eqb_refl.
Qed.

Hypothesis Hgrow_pos : 0 < grow.
Hypothesis Hgrow_fits : max_indices + grow <= 2 ^ Handle.index_type_bits p.

(** An acquisition that returns never takes a slot that holds an object:
    the slot of the returned handle was empty or is new, it now holds the
    given pointer, every other slot that existed is as it was, and so every
    object the table held is still in its slot with its version. *)
Theorem AqcuireHandle_fresh_slot (tb : list TableEntry) rawObject h tb' :
  wf p tb = true ->
  AqcuireHandle p grow NDEBUG tb rawObject = Return (h, tb') ->
  ~ occupied tb (N.to_nat (Handle.index h)) /\
  (exists v, tb' !! N.to_nat (Handle.index h) = Some (v, rawObject)) /\
  (forall j, j <> N.to_nat (Handle.index h) -> (j < length tb)%nat ->
             tb' !! j = tb !! j) /\
  (forall j v address, tb !! j = Some (v, object address) ->
                       tb' !! j = Some (v, object address)).
Proof.
  intros Hwf Hacq.
  destruct (AqcuireHandle_effect p grow NDEBUG _ _ HV HI Hgrow_pos Hgrow_fits
              tb rawObject h tb' Hwf Hacq) as (Hold & Hnew & Hframe).
  assert (Hfree : ~ occupied tb (N.to_nat (Handle.index h))).
  { intros (v & a & Hocc). destruct Hold as [Hn|[v' Hn]]; congruence. }
  split; [exact Hfree|]. split; [exact Hnew|]. split; [exact Hframe|].
  intros j v a Hj. rewrite Hframe; [exact Hj| |eapply lookup_lt_Some, Hj].
  intros ->. apply Hfree. exists v, a. exact Hj.
Qed.

Hypothesis Hversion : 0 < max_version.

Lemma acquire_all_inv rawObjects : forall (tb : list TableEntry) hs tb',
  wf p tb = true ->
  forallb (fun q => negb (is_null q)) rawObjects = true ->
  acquire_all p grow NDEBUG tb rawObjects = Return (hs, tb') ->
  length hs = length rawObjects /\
  NoDup (Handle.index <$> hs) /\
  (forall h, h ∈ hs ->
     ~ occupied tb (N.to_nat (Handle.index h)) /\
     occupied tb' (N.to_nat (Handle.index h))) /\
  (forall j, occupied tb j -> occupied tb' j) /\
  wf p tb' = true.
Proof.
  induction rawObjects as [|q rest IH]; intros tb hs tb' Hwf Hnn; simpl.
  - intros [= <- <-]. split; [reflexivity|]. split; [constructor|].
    split; [|split; [auto | exact Hwf]].
    intros h Hin. now apply elem_of_nil in Hin.
  - simpl in Hnn. apply andb_prop in Hnn as [Hq Hrest].
    intros ([h tb1] & Hacq & H)%obind_Return. simpl in H.
    apply obind_Return in H as ([hs' tb2] & Hall & [= <- <-]). simpl.
    pose proof (AqcuireHandle_wf p grow NDEBUG _ _ HV HI Hversion Hgrow_pos Hgrow_fits
                  tb q h tb1 Hwf Hacq) as Hwf1.
    destruct (AqcuireHandle_effect p grow NDEBUG _ _ HV HI Hgrow_pos Hgrow_fits
                tb q h tb1 Hwf Hacq) as (Hold & [v Hnew] & Hframe).
    destruct (IH tb1 hs' tb2 Hwf1 Hrest Hall) as (Hlen & Hnd & Hhs & Hkeep & Hwf2).
    assert (Hfree : ~ occupied tb (N.to_nat (Handle.index h))).
    { intros (v' & a & Hocc). destruct Hold as [Hn|[v'' Hn]]; congruence. }
    assert (Hocc1 : occupied tb1 (N.to_nat (Handle.index h))).
    { destruct q as [|a]; [discriminate|]. exists v, a. exact Hnew. }
    assert (Hkeep1 : forall j, occupied tb j -> occupied tb1 j).
    { intros j (v' & a & Hj). exists v', a.
      rewrite Hframe; [exact Hj| |eapply lookup_lt_Some, Hj].
      intros ->. apply Hfree. exists v', a. exact Hj. }
    split; [now f_equal|]. split; [|split; [|split]].
    + apply NoDup_cons. split; [|exact Hnd].
      intros (h' & Heq & Hin)%list_elem_of_fmap.
      destruct (Hhs h' Hin) as [Hno _]. apply Hno. now rewrite <- Heq.
    + intros h' [->|Hin]%elem_of_cons.
      * split; [exact Hfree | now apply Hkeep].
      * destruct (Hhs h' Hin) as [Hno Hyes]. split; [|exact Hyes].
        intros Hocc. apply Hno. now apply Hkeep1.
    + intros j Hj. now apply Hkeep, Hkeep1.
    + exact Hwf2.
Qed.

(** Acquisitions of objects (non-null pointers) in a row, with no release
    in between, return handles whose indices are pairwise distinct, on the
    reuse path and across growth alike; each index was free before the
    row and holds an object after it. *)
Theorem acquire_all_distinct (tb : list TableEntry) rawObjects hs tb' :
  wf p tb = true ->
  forallb (fun q => negb (is_null q)) rawObjects = true ->
  acquire_all p grow NDEBUG tb rawObjects = Return (hs, tb') ->
  length hs = length rawObjects /\
  NoDup (Handle.index <$> hs) /\
  (forall h, h ∈ hs ->
     ~ occupied tb (N.to_nat (Handle.index h)) /\
     occupied tb' (N.to_nat (Handle.index h))).
Proof.
  intros Hwf Hnn Hall.
  destruct (acquire_all_inv rawObjects tb hs tb' Hwf Hnn Hall) as (H1 & H2 & H3 & _).
  auto.
Qed.

End TableUse.

Lemma handle_at_current_example :
  exists h,
    handle_at Handle32 false [(3, object 1); (7, nullptr)] 1 = Return h /\
    Handle.index h = 1 /\ Handle.version h = 7 /\
    IsExpired [(3, object 1); (7, nullptr)] h = Return false /\
    deref false [(3, object 1); (7, nullptr)] h = Return nullptr.
Proof.
  apply (handle_at_current Handle32 false 4095 1048575 eq_refl eq_refl
           [(3, object 1); (7, nullptr)] 1 7 nullptr); reflexivity.
Defined.

Lemma AqcuireHandle_fresh_slot_example :
  ~ occupied [(1, object 1); (3, nullptr)] 1 /\
  (exists v, [(1, object 1); (4, object 2)] !! 1%nat = Some (v, object 2)) /\
  (forall j, j <> 1%nat -> (j < 2)%nat ->
             [(1, object 1); (4, object 2)] !! j = [(1, object 1); (3, nullptr)] !! j) /\
  (forall j v address, [(1, object 1); (3, nullptr)] !! j = Some (v, object address) ->
                       [(1, object 1); (4, object 2)] !! j = Some (v, object address)).
Proof.
  assert (H0 : 0 < 1024) by reflexivity.
  assert (H1 : 1048575 + 1024 <= 2 ^ Handle.index_type_bits Handle32)
    by (vm_compute; discriminate).
  apply (AqcuireHandle_fresh_slot Handle32 1024 false 4095 1048575 eq_refl eq_refl H0 H1
           [(1, object 1); (3, nullptr)] (object 2) (Handle.Fields 1 4)
           [(1, object 1); (4, object 2)]); reflexivity.
Defined.

Lemma acquire_all_distinct_example :
  exists hs tb',
    acquire_all Handle32 2 false [(0, nullptr); (0, nullptr)]
      [object 1; object 2; object 3] = Return (hs, tb') /\
    length hs = 3%nat /\
    NoDup (Handle.index <$> hs) /\
    (forall h, h ∈ hs ->
       ~ occupied [(0, nullptr); (0, nullptr)] (N.to_nat (Handle.index h)) /\
       occupied tb' (N.to_nat (Handle.index h))).
Proof.
  assert (H0 : 0 < 2) by reflexivity.
  assert (H1 : 1048575 + 2 <= 2 ^ Handle.index_type_bits Handle32)
    by (vm_compute; discriminate).
  assert (H2 : 0 < 4095) by reflexivity.
  eexists _, _. split; [vm_compute; reflexivity|].
  apply (acquire_all_distinct Handle32 2 false 4095 1048575 eq_refl eq_refl H0 H1 H2
           [(0, nullptr); (0, nullptr)] [object 1; object 2; object 3]); reflexivity.
Defined.

(** ** Handles over the life of the table *)


Section TableLife.

Variable p : Handle.params.
Variable grow : N.
Variable NDEBUG : bool.
Variables max_version max_indices : N.
Hypothesis HV : Handle.MAX_VERSION p = Some max_version.
Hypothesis HI : Handle.MAX_INDICES p = Some max_indices.
Hypothesis Hversion : 0 < max_version.
Hypothesis Hgrow_pos : 0 < grow.
Hypothesis Hgrow_fits : max_indices + grow <= 2 ^ Handle.index_type_bits p.

Lemma wf_empty_slots n :
  N.of_nat n <= max_indices ->
  wf p (replicate n (Handle.MIN_VERISON p, nullptr)) = true.
Proof.
  intros Hn. apply (wf_inv p _ _ _ HV HI). split.
  - unfold size. now rewrite length_replicate.
  - intros j e [-> _]%lookup_replicate_1. unfold Handle.MIN_VERISON. simpl. lia.
Qed.

Lemma acquire_all_fresh rawObjects : forall (pre : list TableEntry) m,
  full pre = true ->
  wf p (pre ++ replicate m (Handle.MIN_VERISON p, nullptr)) = true ->
  forallb (fun q => negb (is_null q)) rawObjects = true ->
  (length rawObjects <= m)%nat ->
  acquire_all p grow NDEBUG (pre ++ replicate m (Handle.MIN_VERISON p, nullptr)) rawObjects =
  Return ((fun i => {| Handle.index := N.of_nat i;
                       Handle.version := Handle.MIN_VERISON p + 1 |})
            <$> seq (length pre) (length rawObjects),
          pre ++ ((fun q => (Handle.MIN_VERISON p + 1, q)) <$> rawObjects)
              ++ replicate (m - length rawObjects) (Handle.MIN_VERISON p, nullptr)).
Proof.
  induction rawObjects as [|q rest IH]; intros pre m Hpre Hwf Hnn Hlen; simpl.
  - now rewrite Nat.sub_0_r.
  - destruct m as [|m]; simpl in Hlen; [lia|]. simpl in Hwf |- *.
    simpl in Hnn. apply andb_prop in Hnn as [Hq Hrest].
    assert (Hat : (pre ++ (Handle.MIN_VERISON p, nullptr)
                          :: replicate m (Handle.MIN_VERISON p, nullptr))
                  !! N.to_nat (size pre) = Some (Handle.MIN_VERISON p, nullptr)).
    { unfold size. rewrite Nat2N.id. now apply list_lookup_middle. }
    rewrite (AqcuireHandle_at p grow NDEBUG _ _ HV HI _ (size pre) (Handle.MIN_VERISON p));
      [| assumption | assumption | now apply first_empty_split].
    simpl. rewrite insert_middle.
    replace ((Handle.MIN_VERISON p + 1) mod (max_version + 1))
      with (Handle.MIN_VERISON p + 1)
      by (unfold Handle.MIN_VERISON; symmetry; apply N.mod_small; lia).
    assert (Hpre' : full (pre ++ [(Handle.MIN_VERISON p + 1, q)]) = true).
    { unfold full in *. rewrite forallb_app, Hpre. simpl. now rewrite Hq. }
    assert (Hwf' : wf p ((pre ++ [(Handle.MIN_VERISON p + 1, q)])
                         ++ replicate m (Handle.MIN_VERISON p, nullptr)) = true).
    { rewrite <- app_assoc. simpl.
      rewrite <- (insert_middle pre _ (Handle.MIN_VERISON p, nullptr)).
      apply (wf_insert p _ _ _ _ _ HV HI Hwf). unfold Handle.MIN_VERISON. simpl. lia. }
    specialize (IH (pre ++ [(Handle.MIN_VERISON p + 1, q)]) m Hpre' Hwf' Hrest
                  ltac:(lia)).
    rewrite <- app_assoc in IH. simpl in IH. rewrite IH. simpl.
    rewrite length_app. simpl. rewrite Nat.add_1_r.
    unfold size. rewrite <- app_assoc. reflexivity.
Qed.

(** A new table hands out its slots in order: acquiring objects (non-null
    pointers), at most as many as the table has slots after construction,
    returns the indices 0, 1, 2, ... each with the version
    [MIN_VERISON + 1], and stores the objects in these slots. *)
Theorem fresh_table_acquisitions rawObjects :
  0 < max_indices ->
  forallb (fun q => negb (is_null q)) rawObjects = true ->
  N.of_nat (length rawObjects) <= N.min grow max_indices ->
  exists tb0,
    HandleTable p grow NDEBUG = Return tb0 /\
    acquire_all p grow NDEBUG tb0 rawObjects =
    Return ((fun i => {| Handle.index := N.of_nat i;
                         Handle.version := Handle.MIN_VERISON p + 1 |})
              <$> seq 0 (length rawObjects),
            ((fun q => (Handle.MIN_VERISON p + 1, q)) <$> rawObjects)
              ++ replicate (N.to_nat (N.min grow max_indices) - length rawObjects)
                           (Handle.MIN_VERISON p, nullptr)).
Proof.
  intros Hmi Hnn Hlen. eexists. split.
  - unfold HandleTable.
    apply (GrowTable_Return p grow NDEBUG _ HI []); unfold size; simpl; lia.
  - simpl. rewrite N.sub_0_r.
    apply (acquire_all_fresh rawObjects [] (N.to_nat (N.min grow max_indices)));
      [reflexivity | apply wf_empty_slots; lia | assumption | lia].
Qed.

End TableLife.

Lemma fresh_table_acquisitions_example :
  exists tb0,
    HandleTable Handle32 1024 false = Return tb0 /\
    acquire_all Handle32 1024 false tb0 [object 1; object 2; object 3] =
    Return ((fun i => {| Handle.index := N.of_nat i;
                         Handle.version := Handle.MIN_VERISON Handle32 + 1 |})
              <$> seq 0 3,
            ((fun q => (Handle.MIN_VERISON Handle32 + 1, q))
               <$> [object 1; object 2; object 3])
              ++ replicate (N.to_nat (N.min 1024 1048575) - 3)
                           (Handle.MIN_VERISON Handle32, nullptr)).
Proof.
  assert (H0 : 0 < 1024) by reflexivity.
  assert (H1 : 1048575 + 1024 <= 2 ^ Handle.index_type_bits Handle32)
    by (vm_compute; discriminate).
  assert (H2 : 0 < 4095) by reflexivity.
  apply (fresh_table_acquisitions Handle32 1024 false 4095 1048575 eq_refl eq_refl H2 H0 H1
           [object 1; object 2; object 3]);
    [reflexivity | reflexivity | vm_compute; discriminate].
Defined.

Section HandleLife.

Variable p : Handle.params.
Variable grow : N.
Variable NDEBUG : bool.
Variables max_version max_indices : N.
Hypothesis HV : Handle.MAX_VERSION p = Some max_version.
Hypothesis HI : Handle.MAX_INDICES p = Some max_indices.
Hypothesis Hversion : 0 < max_version.
Hypothesis Hgrow_pos : 0 < grow.
Hypothesis Hgrow_fits : max_indices + grow <= 2 ^ Handle.index_type_bits p.

Lemma do_calls_keeps_slot cs : forall (tb tb' : list TableEntry) i v address,
  wf p tb = true ->
  tb !! N.to_nat i = Some (v, object address) ->
  forallb (fun c => negb (releases_index i c)) cs = true ->
  do_calls p grow NDEBUG tb cs = Return tb' ->
  tb' !! N.to_nat i = Some (v, object address).
Proof.
  induction cs as [|c cs IH]; intros tb tb' i v a Hwf Hi Hcs; simpl.
  - now intros [= <-].
  - simpl in Hcs. apply andb_prop in Hcs as [Hc Hcs].
    intros (tb1 & H1 & H)%obind_Return.
    assert (Hstep : wf p tb1 = true /\ tb1 !! N.to_nat i = Some (v, object a)).
    { destruct c as [rawObject | h | h | j | h]; simpl in H1.
      - apply obind_Return in H1 as ([h tb2] & H1 & [= <-]). simpl. split.
        + now apply (AqcuireHandle_wf p grow NDEBUG _ _ HV HI Hversion Hgrow_pos Hgrow_fits)
            in H1.
        + destruct (AqcuireHandle_effect p grow NDEBUG _ _ HV HI Hgrow_pos Hgrow_fits
                      tb rawObject h tb2 Hwf H1) as (Hold & _ & Hframe).
          rewrite Hframe; [exact Hi| |eapply lookup_lt_Some, Hi].
          intros Heq. rewrite Heq in Hi. destruct Hold as [Hn|[v' Hn]]; congruence.
      - split; [now apply (ReleaseHandle_wf p NDEBUG _ _ HV HI) in H1|].
        simpl in Hc. apply negb_true_iff, N.eqb_neq in Hc.
        unfold ReleaseHandle in H1. apply obind_Return in H1 as (_ & _ & H1).
        unfold set_second in H1. apply obind_Return in H1 as (e & _ & [= <-]).
        rewrite list_lookup_insert_ne by lia. exact Hi.
      - apply obind_Return in H1 as (_ & _ & [= <-]). auto.
      - apply obind_Return in H1 as (_ & _ & [= <-]). auto.
      - apply obind_Return in H1 as (_ & _ & [= <-]). auto. }
    destruct Hstep as [Hwf1 Hi1]. now apply (IH tb1 tb' i v a).
Qed.

(** A handle whose slot holds an object stays good through any sequence of
    calls that releases no handle of its index, acquisitions that grow the
    table included: the slot keeps its version and its object, the handle
    is not expired and dereferences to the same object. *)
Theorem live_handle_preserved cs (tb tb' : list TableEntry) h address :
  wf p tb = true ->
  tb !! N.to_nat (Handle.index h) = Some (Handle.version h, object address) ->
  forallb (fun c => negb (releases_index (Handle.index h) c)) cs = true ->
  do_calls p grow NDEBUG tb cs = Return tb' ->
  tb' !! N.to_nat (Handle.index h) = Some (Handle.version h, object address) /\
  IsExpired tb' h = Return false /\
  deref NDEBUG tb' h = Return (object address).
Proof.
  intros Hwf Hi Hcs Hrun.
  pose proof (do_calls_keeps_slot cs tb tb' _ _ _ Hwf Hi Hcs Hrun) as Hi'.
  split; [exact Hi'|].
  assert (Hc : current tb' h = true) by (apply current_lookup; eauto).
  unfold IsExpired, deref, assert_. rewrite Hc, orb_true_r. simpl.
  rewrite (at_Return _ _ _ Hi'). simpl. now rewrite N.eqb_refl.
Qed.

(** The version counter comes round: after [MAX_VERSION + 1] rounds of
    release and acquire on one slot, the handle the rounds started from
    equals the handle just returned, so this old handle is not expired and
    dereferences to the object stored last. *)
Theorem version_wrap_revives_handle (tb : list TableEntry) h rawObject :
  wf p tb = true ->
  current tb h = true ->
  full (take (N.to_nat (Handle.index h)) tb) = true ->
  exists tb',
    release_acquire_n p grow NDEBUG rawObject (S (N.to_nat max_version)) (h, tb) =
    Return (h, tb') /\
    IsExpired tb' h = Return false /\
    deref NDEBUG tb' h = Return rawObject.
Proof.
  clear Hversion Hgrow_pos Hgrow_fits. intros Hwf Hc Hfull.
  apply current_lookup in Hc as Hq. destruct Hq as [q Hq].
  pose proof (proj1 (wf_inv p tb _ _ HV HI) Hwf) as [_ Hver].
  pose proof (Hver _ _ Hq) as Hv. simpl in Hv.
  destruct (release_acquire_n_Return p grow NDEBUG _ _ HV HI tb h rawObject Hwf Hc Hfull
              (N.to_nat max_version)) as (tbm & Hrun & Hwfm & _ & Hfullm & qm & Hqm).
  simpl. rewrite Hrun. simpl.
  rewrite (release_acquire_Return p grow NDEBUG _ _ HV HI); simpl; try assumption;
    [|apply current_lookup; simpl; eauto].
  rewrite mod_step.
  replace (Handle.version h + N.of_nat (S (N.to_nat max_version)))
    with (Handle.version h + 1 * (max_version + 1)) by lia.
  rewrite N.Div0.mod_add, N.mod_small by lia.
  pose proof (lookup_lt_Some _ _ _ Hqm) as Hlt.
  eexists. split; [destruct h; reflexivity|].
  assert (Hat : <[N.to_nat (Handle.index h) := (Handle.version h, rawObject)]> tbm
                !! N.to_nat (Handle.index h) = Some (Handle.version h, rawObject))
    by now apply list_lookup_insert_eq.
  assert (Hc' : current (<[N.to_nat (Handle.index h) := (Handle.version h, rawObject)]> tbm) h
                = true) by (apply current_lookup; eauto).
  unfold IsExpired, deref, assert_. rewrite Hc', orb_true_r. simpl.
  rewrite (at_Return _ _ _ Hat). simpl. now rewrite N.eqb_refl.
Qed.

(** The constructor and every operation keep the table within its bounds:
    in every table reached from a new one by calls that return, there are
    at most [MAX_INDICES] slots and no version counter is above
    [MAX_VERSION]. *)
Theorem table_invariant :
  0 < max_indices ->
  (exists tb0, HandleTable p grow NDEBUG = Return tb0 /\ wf p tb0 = true) /\
  (forall cs (tb tb' : list TableEntry),
     wf p tb = true ->
     do_calls p grow NDEBUG tb cs = Return tb' ->
     wf p tb' = true /\
     size tb' <= max_indices /\
     (forall j v q, tb' !! j = Some (v, q) -> v <= max_version)).
Proof.
  intros Hmi. split.
  - eexists. split.
    + unfold HandleTable.
      apply (GrowTable_Return p grow NDEBUG _ HI []); unfold size; simpl; lia.
    + rewrite app_nil_l. apply (wf_inv p _ _ _ HV HI). split.
      * unfold size. rewrite length_replicate. simpl. lia.
      * intros j e [-> _]%lookup_replicate_1. unfold Handle.MIN_VERISON. simpl. lia.
  - intros cs tb tb' Hwf Hrun.
    pose proof (do_calls_wf p grow NDEBUG _ _ HV HI Hversion Hgrow_pos Hgrow_fits
                  cs tb tb' Hwf Hrun) as Hwf'.
    split; [exact Hwf'|].
    apply (wf_inv p tb' _ _ HV HI) in Hwf' as [Hsz Hver].
    split; [exact Hsz|]. intros j v q Hj. apply (Hver _ _ Hj).
Qed.

End HandleLife.

Lemma live_handle_preserved_example :
  exists tb',
    do_calls Handle32 2 false [(1, object 1); (1, object 2)]
      [CallAqcuireHandle (object 3); CallReleaseHandle (Handle.Fields 1 1);
       CallIsExpired (Handle.Fields 0 1); CallAqcuireHandle (object 4)] = Return tb' /\
    tb' !! 0%nat = Some (1, object 1) /\
    IsExpired tb' (Handle.Fields 0 1) = Return false /\
    deref false tb' (Handle.Fields 0 1) = Return (object 1).
Proof.
  assert (H0 : 0 < 2) by reflexivity.
  assert (H1 : 1048575 + 2 <= 2 ^ Handle.index_type_bits Handle32)
    by (vm_compute; discriminate).
  assert (H2 : 0 < 4095) by reflexivity.
  eexists. split; [vm_compute; reflexivity|].
  apply (live_handle_preserved Handle32 2 false 4095 1048575 eq_refl eq_refl H2 H0 H1
           [CallAqcuireHandle (object 3); CallReleaseHandle (Handle.Fields 1 1);
            CallIsExpired (Handle.Fields 0 1); CallAqcuireHandle (object 4)]
           [(1, object 1); (1, object 2)] _ (Handle.Fields 0 1) 1); reflexivity.
Defined.

Lemma version_wrap_revives_handle_example :
  exists tb',
    release_acquire_n Handle32 1024 false (object 2) (S (N.to_nat 4095))
      (Handle.Fields 0 1, [(1, object 1); (0, nullptr)]) =
    Return (Handle.Fields 0 1, tb') /\
    IsExpired tb' (Handle.Fields 0 1) = Return false /\
    deref false tb' (Handle.Fields 0 1) = Return (object 2).
Proof.
  apply (version_wrap_revives_handle Handle32 1024 false 4095 1048575 eq_refl eq_refl
           [(1, object 1); (0, nullptr)] (Handle.Fields 0 1) (object 2)); reflexivity.
Defined.

Lemma table_invariant_example :
  (exists tb0, HandleTable Handle32 1024 false = Return tb0 /\ wf Handle32 tb0 = true) /\
  (forall cs (tb tb' : list TableEntry),
     wf Handle32 tb = true ->
     do_calls Handle32 1024 false tb cs = Return tb' ->
     wf Handle32 tb' = true /\
     size tb' <= 1048575 /\
     (forall j v q, tb' !! j = Some (v, q) -> v <= 4095)).
Proof.
  assert (H0 : 0 < 1024) by reflexivity.
  assert (H1 : 1048575 + 1024 <= 2 ^ Handle.index_type_bits Handle32)
    by (vm_compute; discriminate).
  assert (H2 : 0 < 4095) by reflexivity.
  apply (table_invariant Handle32 1024 false 4095 1048575 eq_refl eq_refl H2 H0 H1).
  reflexivity.
Defined.

(** ** Edge cases of acquisition and of the default handle *)

Lemma pow2_minus_1_mod a b :
  a <= b -> (2 ^ b - 1) mod 2 ^ a = 2 ^ a - 1.
Proof.
  intros Hab.
  assert (Ha : 0 < 2 ^ a) by (apply N.neq_0_lt_0, N.pow_nonzero; lia).
  assert (Hd : 0 < 2 ^ (b - a)) by (apply N.neq_0_lt_0, N.pow_nonzero; lia).
  assert (Hb : 2 ^ b = 2 ^ (b - a) * 2 ^ a).
  { rewrite <- N.pow_add_r. f_equal. lia. }
  assert (Hsplit : 2 ^ b - 1 = (2 ^ a - 1) + (2 ^ (b - a) - 1) * 2 ^ a).
  { rewrite Hb, N.mul_sub_distr_r.
    assert (2 ^ a <= 2 ^ (b - a) * 2 ^ a) by nia. lia. }
  rewrite Hsplit, N.Div0.mod_add. apply N.mod_small. lia.
Qed.

Section EdgeCases.

Variable p : Handle.params.
Variable grow : N.
Variable NDEBUG : bool.
Variables max_version max_indices : N.
Hypothesis HV : Handle.MAX_VERSION p = Some max_version.
Hypothesis HI : Handle.MAX_INDICES p = Some max_indices.

(** The index of a default-constructed handle is [MAX_INDICES], which no
    table reaches: whatever its version, such a handle is current in no
    table, [operator[](Handle)] and [ReleaseHandle] fail their assertion on
    it and [IsExpired] reads outside the vector. *)
Theorem default_handle_never_current (tb : list TableEntry) h :
  wf p tb = true ->
  Handle.index h = Handle_default_index p ->
  Handle.index h = max_indices /\
  current tb h = false /\
  deref false tb h = AssertionFailed "Invalid handle!" /\
  ReleaseHandle false tb h = AssertionFailed "Invalid handle!" /\
  IsExpired tb h = Undefined.
Proof.
  intros Hwf Hidx.
  apply (wf_inv p tb _ _ HV HI) in Hwf as [Hsz _].
  assert (Hmax : Handle.index h = max_indices).
  { rewrite Hidx. unfold Handle_default_index, Handle_default_value, wrap.
    apply MAX_INDICES_Some in HI as (_ & -> & Hlt).
    apply pow2_minus_1_mod.
    destruct (N.le_gt_cases (Handle.NUM_INDEX_BITS p) (Handle.index_type_bits p))
      as [Hle|Hgt]; [exact Hle|].
    assert (2 ^ Handle.index_type_bits p < 2 ^ Handle.NUM_INDEX_BITS p)
      by (apply N.pow_lt_mono_r; lia).
    lia. }
  assert (Hnone : tb !! N.to_nat (Handle.index h) = None).
  { apply lookup_ge_None_2. unfold size in Hsz. lia. }
  assert (Hc : current tb h = false).
  { unfold current. rewrite Hnone. apply andb_false_r. }
  split; [exact Hmax|]. split; [exact Hc|].
  unfold deref, ReleaseHandle, IsExpired, assert_, at_. rewrite Hc, Hnone. auto.
Qed.

Hypothesis Hversion : 0 < max_version.


Hypothesis Hgrow_pos : 0 < grow.
Hypothesis Hgrow_fits : max_indices + grow <= 2 ^ Handle.index_type_bits p.

(** The handle returned by an acquisition that grew the table cannot be
    released: [ReleaseHandle] fails its assertion on it. The slot can only
    be released through the handle [operator[](index_type)] builds for its
    index. *)
Theorem grown_handle_cannot_be_released (tb : list TableEntry) rawObject :
  wf p tb = true ->
  full tb = true ->
  size tb < max_indices ->
  exists h tb',
    AqcuireHandle p grow NDEBUG tb rawObject = Return (h, tb') /\
    ReleaseHandle false tb' h = AssertionFailed "Invalid handle!" /\
    exists h2 tb2,
      handle_at p false tb' (Handle.index h) = Return h2 /\
      ReleaseHandle false tb' h2 = Return tb2 /\
      tb2 !! N.to_nat (Handle.index h) = Some (Handle.MIN_VERISON p + 1, nullptr).
Proof.
  intros Hwf Hfull Hlt.
  assert (Hacq : AqcuireHandle p grow NDEBUG tb rawObject =
                 AqcuireHandle_grow p grow NDEBUG tb rawObject).
  { unfold AqcuireHandle. now rewrite (full_first_empty _ Hfull). }
  pose proof (AqcuireHandle_grow_Return p grow NDEBUG _ _ HV HI tb rawObject Hlt Hgrow_pos
                ltac:(lia)) as Hgrow.
  apply MAX_VERSION_Some in HV as Hvt. destruct Hvt as (_ & _ & Hvt).
  rewrite (wrap_small _ (Handle.MIN_VERISON p + 1)) in Hgrow
    by (unfold Handle.MIN_VERISON; lia).
  rewrite <- Hacq in Hgrow.
  pose proof (AqcuireHandle_wf p grow NDEBUG _ _ HV HI Hversion Hgrow_pos Hgrow_fits
                tb rawObject _ _ Hwf Hgrow) as Hwf'.
  eexists _, _. split; [exact Hgrow|]. simpl.
  match goal with |- context [ReleaseHandle false ?t _] => set (tb' := t) in * end.
  assert (Hat : tb' !! N.to_nat (size tb) = Some (Handle.MIN_VERISON p + 1, rawObject)).
  { subst tb'. unfold size. rewrite Nat2N.id. now apply list_lookup_middle. }
  split.
  - unfold ReleaseHandle, assert_, current. simpl. rewrite Hat. simpl.
    now rewrite andb_false_r.
  - exists {| Handle.index := size tb; Handle.version := Handle.MIN_VERISON p + 1 |}.
    eexists. split; [|split].
    + apply (handle_at_Return p false _ _ HV HI tb' _ _ _ Hwf' Hat).
    + assert (Hc : current tb' {| Handle.index := size tb;
                                  Handle.version := Handle.MIN_VERISON p + 1 |} = true)
        by (apply current_lookup; simpl; eauto).
      destruct (ReleaseHandle_current false tb' _ Hc) as (q & _ & Hrel). exact Hrel.
    + simpl. apply list_lookup_insert_eq. eapply lookup_lt_Some, Hat.
Qed.

End EdgeCases.

Lemma default_handle_never_current_example :
  Handle.index (Handle.Fields 1048575 4095) = 1048575 /\
  current [(1, object 1)] (Handle.Fields 1048575 4095) = false /\
  deref false [(1, object 1)] (Handle.Fields 1048575 4095) =
  AssertionFailed "Invalid handle!" /\
  ReleaseHandle false [(1, object 1)] (Handle.Fields 1048575 4095) =
  AssertionFailed "Invalid handle!" /\
  IsExpired [(1, object 1)] (Handle.Fields 1048575 4095) = Undefined.
Proof.
  apply (default_handle_never_current Handle32 4095 1048575 eq_refl eq_refl
           [(1, object 1)] (Handle.Fields 1048575 4095));
    vm_compute; reflexivity.
Defined.


Lemma grown_handle_cannot_be_released_example :
  exists h tb',
    AqcuireHandle Handle32 2 false (occupied_table 2 1) (object 2) = Return (h, tb') /\
    ReleaseHandle false tb' h = AssertionFailed "Invalid handle!" /\
    exists h2 tb2,
      handle_at Handle32 false tb' (Handle.index h) = Return h2 /\
      ReleaseHandle false tb' h2 = Return tb2 /\
      tb2 !! N.to_nat (Handle.index h) = Some (Handle.MIN_VERISON Handle32 + 1, nullptr).
Proof.
  assert (H0 : 0 < 2) by reflexivity.
  assert (H1 : 1048575 + 2 <= 2 ^ Handle.index_type_bits Handle32)
    by (vm_compute; discriminate).
  assert (H2 : 0 < 4095) by reflexivity.
  apply (grown_handle_cannot_be_released Handle32 2 false 4095 1048575 eq_refl eq_refl
           H2 H0 H1 (occupied_table 2 1) (object 2)); reflexivity.
Defined.

Lemma Handle_constants_defined_example :
  Handle.MAX_INDICES Handle32 = Some 1048575.
Proof.
  apply (proj2 (proj1 (Handle_constants_defined Handle32 1048575))).
  repeat split; reflexivity.
Defined.

Lemma AqcuireHandle_reuse_handle_current_example :
  exists h tb',
    AqcuireHandle Handle32 1024 false ([(1, object 1)] ++ (4095, nullptr) :: []) (object 2) =
    Return (h, tb') /\
    IsExpired tb' h = Return false /\
    deref false tb' h = Return (object 2).
Proof.
  apply (AqcuireHandle_reuse_handle_current Handle32 1024 false 4095 1048575 eq_refl eq_refl
           [(1, object 1)] [] 4095 (object 2)); reflexivity.
Defined.
